(** * Concurrent text-analysis pipeline: analyzers, engine, worker pool,
      filter stage and aggregator.

    A shallow embedding of [main.go] and [analyze.go].

    - A Go string is taken as the sequence of runes that [range],
      [strings.Fields] and [strings.ToLower] see in it (an ill-formed byte
      is the replacement rune there); all three analyzers depend on the
      content through that sequence only.
    - Go's [int] is a 64-bit two's-complement integer: [+], [+=] and [++]
      wrap ([int_add]).
    - A slice is the sequence of its elements, [map[string]int] is a
      [gmap], and the order in which [range] visits a map is quantified
      over.
    - The operating system ([os.ReadFile], [os.Stat]) is a function that
      does not change during a run; [unicode.ToLower] above ASCII,
      [filepath.Base] and [sort.Slice] are Go's, and are parameters.
    - The goroutines of [AnalyzeParallel] and of [main] are transition
      systems; every property is proved for all schedules. *)

From Stdlib Require Import ZArith List Permutation Sorted.
From stdpp Require Import base decidable option list gmap strings sorting.

Local Open Scope Z_scope.

(** ** Go base types *)

Abbreviation rune := Z (only parsing).
Abbreviation gostring := (list Z) (only parsing).

(** A string literal of the source, as runes (the literals of the program are
    ASCII). *)
Definition runes (s : string) : gostring :=
  (λ c, Z.of_nat (Ascii.nat_of_ascii c)) <$> String.list_ascii_of_string s.

(** [int] on the 64-bit platforms the program targets. *)
Definition int_max : Z := 2 ^ 63 - 1.
Definition int_wrap (z : Z) : Z := (z + 2 ^ 63) mod 2 ^ 64 - 2 ^ 63.
Definition int_add (a b : Z) : Z := int_wrap (a + b).

(** [len] of a slice. *)
Definition len {A} (l : list A) : Z := Z.of_nat (length l).

(** ** Data model ([main.go], lines 18-33) *)

(** [Data any]: the analyzers of the program store an [int] or a
    [map[string]int]; [AnyNil] is the zero value of the interface. *)
Inductive any : Type :=
| AnyNil
| AnyInt (n : Z)
| AnyFreq (m : gmap (list Z) Z).

Record AnalysisResult : Type := mkAnalysisResult {
  NameAnalyzer : gostring;
  Data : any
}.

Record FileAnalysisResult : Type := mkFileAnalysisResult {
  FileName : gostring;
  Size : Z;
  Results : list AnalysisResult
}.

Record Analyzer : Type := mkAnalyzer {
  Analyze : gostring → AnalysisResult;
  Name : gostring
}.

(** [error]: [None] is [nil]. *)
Abbreviation error := (option (list Z)) (only parsing).

(** The type assertions [x.(int)] and [x.(map[string]int)]: [None] is the
    run-time panic of a failed assertion. *)
Definition assert_int (d : any) : option Z :=
  match d with AnyInt n => Some n | _ => None end.
Definition assert_freq (d : any) : option (gmap (list Z) Z) :=
  match d with AnyFreq m => Some m | _ => None end.

(** ** The parts of Go's library the analyzers call *)

(** [unicode.IsSpace]: the Latin-1 switch, then the White_Space table. *)
Definition IsSpace (r : rune) : bool :=
  if (0 <=? r) && (r <=? 255) then
    (r =? 9) || (r =? 10) || (r =? 11) || (r =? 12) || (r =? 13)
    || (r =? 32) || (r =? 133) || (r =? 160)
  else
    (r =? 5760) || ((8192 <=? r) && (r <=? 8202)) || (r =? 8232)
    || (r =? 8233) || (r =? 8239) || (r =? 8287) || (r =? 12288).

(** [strings.Fields]: one pass over the runes; [cur] is the field being
    read ([None] between fields, the library's negative [start]), [acc] the
    spans already closed. *)
Fixpoint fields_scan (s : gostring) (cur : option gostring)
    (acc : list gostring) : list gostring :=
  match s with
  | [] => match cur with Some w => acc ++ [w] | None => acc end
  | r :: s' =>
      if IsSpace r then
        match cur with
        | Some w => fields_scan s' None (acc ++ [w])
        | None => fields_scan s' None acc
        end
      else
        match cur with
        | Some w => fields_scan s' (Some (w ++ [r])) acc
        | None => fields_scan s' (Some [r]) acc
        end
  end.

Definition Fields (s : gostring) : list gostring := fields_scan s None [].

(** [strings.Count(s, "\n")]. *)
Definition newline : rune := 10.
Definition Count_newline (s : gostring) : Z :=
  len (filter (λ r, r = newline) s).

(** ** What the specification says the analyzers compute *)

(** Splitting at every separator rune, empty pieces included. *)
Fixpoint split_at (sep : rune → bool) (s : gostring) : list gostring :=
  match s with
  | [] => [[]]
  | r :: s' =>
      if sep r then [] :: split_at sep s'
      else match split_at sep s' with
           | p :: ps => (r :: p) :: ps
           | [] => [[r]]
           end
  end.

(** The non-empty tokens of a content split on whitespace runs. *)
Definition tokens (s : gostring) : list gostring :=
  filter (λ t, t ≠ []) (split_at IsSpace s).

(** Occurrences of [w] in a list of words. *)
Definition occurrences (w : gostring) (ws : list gostring) : Z :=
  len (filter (λ t, t = w) ws).

(** The entries of the report ([main.go], lines 290-293). *)
Record WordCount : Type := mkWordCount { Word : gostring; Count : Z }.

(** The [less] of the report: [words[i].Count > words[j].Count]. *)
Definition count_greater (a b : WordCount) : bool := Count b <? Count a.

(** No element is [less] than an earlier one. *)
Definition no_inversion (less : WordCount → WordCount → bool)
    (a b : WordCount) : Prop := less b a = false.

(** ** A concrete environment

    Three readable files and nothing else, an identity case table above
    ASCII, and a merge sort for [sort.Slice]; the examples at the end of the
    development run in it. *)

Definition demo_lower (r : rune) : rune := r.

Definition demo_ReadFile (path : gostring) : gostring * error :=
  if bool_decide (path = runes "docs/a.txt") then (runes "one", None)
  else if bool_decide (path = runes "docs/b.txt") then (runes "one two", None)
  else if bool_decide (path = runes "docs/c.txt")
  then (runes "a b c d" ++ [newline] ++ runes "E", None)
  else ([], Some (runes "no such file or directory")).

Definition demo_Stat_Size (path : gostring) : Z * error :=
  let '(data, err) := demo_ReadFile path in (len data, err).

(** The part of the path after the last slash. *)
Definition demo_Base (path : gostring) : gostring :=
  foldl (λ name r, if r =? 47 then [] else name ++ [r]) [] path.

#[global] Instance no_inversion_dec less a b : Decision (no_inversion less a b).
Proof. unfold no_inversion. apply _. Defined.

Definition demo_sort (less : WordCount → WordCount → bool)
    (l : list WordCount) : list WordCount :=
  merge_sort (no_inversion less) l.

Definition demo_files : list gostring :=
  [runes "docs/a.txt"; runes "docs/missing.txt"; runes "docs/b.txt"].

Section Pipeline.

Set Default Proof Using "Type".

(** [unicode.ToLower] above ASCII is Go's case table, which is not part
    of the repository. *)
Variable unicode_lower : rune → rune.

Definition ToLower_rune (r : rune) : rune :=
  if (0 <=? r) && (r <=? 127) then
    if (65 <=? r) && (r <=? 90) then r + 32 else r
  else unicode_lower r.

(** [strings.ToLower]. *)
Definition ToLower (s : gostring) : gostring := ToLower_rune <$> s.

(** *** The three analyzers ([main.go], lines 36-75) *)

Definition WordCount_Name : gostring := runes "word_count".
Definition WordCount_Analyze (content : gostring) : AnalysisResult :=
  let words := Fields content in
  {| NameAnalyzer := WordCount_Name; Data := AnyInt (len words) |}.

Definition LineCount_Name : gostring := runes "line_count".
Definition LineCount_Analyze (content : gostring) : AnalysisResult :=
  let lines := int_add (Count_newline content) 1 in
  {| NameAnalyzer := LineCount_Name; Data := AnyInt lines |}.

(** [freq[k]++] on a map: a missing key reads as 0. *)
Definition incr (freq : gmap (list Z) Z) (k : gostring) : gmap (list Z) Z :=
  <[k := int_add (default 0 (freq !! k)) 1]> freq.

Definition MostFrequentWords_Name : gostring := runes "most_frequent_words".
Definition MostFrequentWords_Analyze (content : gostring) : AnalysisResult :=
  let freq :=
    foldl (λ freq word, incr freq (ToLower word)) ∅ (Fields content) in
  {| NameAnalyzer := MostFrequentWords_Name; Data := AnyFreq freq |}.

Definition WordCountAnalyzer : Analyzer :=
  {| Analyze := WordCount_Analyze; Name := WordCount_Name |}.
Definition LineCountAnalyzer : Analyzer :=
  {| Analyze := LineCount_Analyze; Name := LineCount_Name |}.
Definition MostFrequentWordsAnalyzer : Analyzer :=
  {| Analyze := MostFrequentWords_Analyze; Name := MostFrequentWords_Name |}.

(** *** Reading a file ([main.go], lines 125-135) *)

(** The operating system, fixed for the duration of a run: [os.ReadFile]
    gives the data and an error, [os.Stat] followed by [info.Size()] the
    size and an error. *)
Variable os_ReadFile : gostring → gostring * error.
Variable os_Stat_Size : gostring → Z * error.

(** [filepath.Base]. *)
Variable filepath_Base : gostring → gostring.

Definition readFileContent (path : gostring) : gostring * Z * error :=
  let '(data, err) := os_ReadFile path in
  match err with
  | Some e => ([], 0, Some e)
  | None =>
      let '(size, err) := os_Stat_Size path in
      match err with
      | Some e => ([], 0, Some e)
      | None => (data, size, None)
      end
  end.

(** ** [analyze.go] *)

(** The inner loop of [AnalyzeSequential]: results are appended in the
    order of the analyzers. *)
Definition analyze_appending (analyzers : list Analyzer)
    (content : gostring) : list AnalysisResult :=
  foldl (λ analysisResults analyzer,
           analysisResults ++ [Analyze analyzer content]) [] analyzers.

Definition AnalyzeSequential (files : list gostring)
    (analyzers : list Analyzer) : list FileAnalysisResult * error :=
  let results :=
    foldl (λ results path,
             let '(content, size, err) := readFileContent path in
             match err with
             | Some _ => results
             | None =>
                 results ++
                 [ {| FileName := filepath_Base path;
                      Size := size;
                      Results := analyze_appending analyzers content |} ]
             end) [] files in
  (results, None).

(** The fan-out of one file's analyzers in a pool worker:
    [make([]AnalysisResult, len(analyzers))], then one goroutine per
    analyzer that stores into its own slot.  [order] is the order in which
    the goroutines complete. *)
Definition zero_AnalysisResult : AnalysisResult :=
  {| NameAnalyzer := []; Data := AnyNil |}.

Definition make_slots (n : nat) : list AnalysisResult :=
  replicate n zero_AnalysisResult.

Definition store_slot (analyzers : list Analyzer) (content : gostring)
    (analysisResults : list AnalysisResult) (i : nat) : list AnalysisResult :=
  match analyzers !! i with
  | Some a => <[i := Analyze a content]> analysisResults
  | None => analysisResults
  end.

Definition analyze_slots (analyzers : list Analyzer) (content : gostring)
    (order : list nat) : list AnalysisResult :=
  foldl (store_slot analyzers content) (make_slots (length analyzers)) order.

(** The goroutines spawned for one file: one per index, each exactly once. *)
Definition completion_order (analyzers : list Analyzer) (order : list nat) : Prop :=
  order ≡ₚ seq 0 (length analyzers).

#[global] Instance completion_order_dec analyzers order :
  Decision (completion_order analyzers order).
Proof. unfold completion_order. apply _. Defined.

(** *** [AnalyzeParallel] as a transition system

    [filePaths] and [results] are unbuffered, so a send and its receive are
    one step. *)
Inductive worker : Type :=
| WRecv                            (* in [range filePaths], waiting *)
| WGot (path : gostring)           (* received [path], not yet read *)
| WSend (r : FileAnalysisResult)   (* blocked in [results <- r] *)
| WDone.                           (* loop left, [wg.Done()] run *)

Record pool : Type := mkPool {
  feed : list gostring;            (* files the feeder has still to send *)
  feed_closed : bool;              (* [close(filePaths)] has run *)
  workers : list worker;
  results_closed : bool;           (* [close(results)] has run *)
  out : list FileAnalysisResult;   (* [out] of the calling goroutine *)
  returned : option (list FileAnalysisResult * error)
}.

Inductive action : Type :=
| Hand (i : nat)                     (* feeder's send meets worker [i] *)
| Work (i : nat) (order : list nat)  (* worker [i] reads and analyses *)
| Push (i : nat)                     (* worker [i]'s send meets the caller *)
| CloseFeed
| Exit (i : nat)
| CloseResults
| Return.

Definition is_done (w : worker) : bool :=
  match w with WDone => true | _ => false end.

Definition set_worker (s : pool) (i : nat) (w : worker) : pool :=
  mkPool (feed s) (feed_closed s) (<[i := w]> (workers s))
         (results_closed s) (out s) (returned s).

Definition pool_step (analyzers : list Analyzer) (a : action) (s : pool) :
    option pool :=
  match a with
  | Hand i =>
      match feed s, workers s !! i with
      | f :: rest, Some WRecv =>
          Some (mkPool rest (feed_closed s) (<[i := WGot f]> (workers s))
                       (results_closed s) (out s) (returned s))
      | _, _ => None
      end
  | Work i order =>
      match workers s !! i with
      | Some (WGot path) =>
          let '(content, size, err) := readFileContent path in
          match err with
          | Some _ => Some (set_worker s i WRecv)
          | None =>
              if bool_decide (completion_order analyzers order) then
                Some (set_worker s i
                        (WSend {| FileName := filepath_Base path;
                                  Size := size;
                                  Results :=
                                    analyze_slots analyzers content order |}))
              else None
          end
      | _ => None
      end
  | Push i =>
      match workers s !! i with
      | Some (WSend r) =>
          if results_closed s then None
          else Some (mkPool (feed s) (feed_closed s)
                            (<[i := WRecv]> (workers s))
                            (results_closed s) (out s ++ [r]) (returned s))
      | _ => None
      end
  | CloseFeed =>
      match feed s, feed_closed s with
      | [], false =>
          Some (mkPool [] true (workers s) (results_closed s) (out s)
                       (returned s))
      | _, _ => None
      end
  | Exit i =>
      match workers s !! i with
      | Some WRecv =>
          if feed_closed s then Some (set_worker s i WDone) else None
      | _ => None
      end
  | CloseResults =>
      if feed_closed s && forallb is_done (workers s)
         && negb (results_closed s)
      then Some (mkPool (feed s) (feed_closed s) (workers s) true (out s)
                        (returned s))
      else None
  | Return =>
      match returned s with
      | None =>
          if results_closed s
          then Some (mkPool (feed s) (feed_closed s) (workers s)
                            (results_closed s) (out s) (Some (out s, None)))
          else None
      | Some _ => None
      end
  end.

(** A run under a schedule. *)
Fixpoint pool_run (analyzers : list Analyzer) (sched : list action)
    (s : pool) : option pool :=
  match sched with
  | [] => Some s
  | a :: sched' =>
      match pool_step analyzers a s with
      | Some s' => pool_run analyzers sched' s'
      | None => None
      end
  end.

(** The state after [for i := 0; i < workers; i++ { go ... }] and the
    start of the feeder. *)
Definition AnalyzeParallel_start (files : list gostring) (workers : Z) : pool :=
  mkPool files false (replicate (Z.to_nat workers) WRecv) false [] None.

(** [AnalyzeParallel files analyzers workers] may return [ret]. *)
Definition AnalyzeParallel (files : list gostring) (analyzers : list Analyzer)
    (workers : Z) (ret : list FileAnalysisResult * error) : Prop :=
  ∃ sched s,
    pool_run analyzers sched (AnalyzeParallel_start files workers) = Some s
    ∧ returned s = Some ret.

(** Steps a state can still take at most. *)
Definition worker_weight (w : worker) : nat :=
  match w with
  | WRecv => 1 | WGot _ => 3 | WSend _ => 2 | WDone => 0
  end%nat.

Definition pool_weight (s : pool) : nat :=
  (3 * length (feed s) + sum_list (worker_weight <$> workers s)
   + (if feed_closed s then 0 else 1)
   + (if results_closed s then 0 else 1)
   + (match returned s with Some _ => 0 | None => 1 end))%nat.

(** ** [main.go]: the interactive pipeline *)

Definition main_analyzers : list Analyzer :=
  [WordCountAnalyzer; LineCountAnalyzer; MostFrequentWordsAnalyzer].

(** *** The worker pool of [main] as a transition system

    [filePaths] has a buffer of 100; [results] is unbuffered and read by the
    filter stage, which forwards to the collecting loop of [main]: a
    worker's send on [results] is one step with the filter's receive. *)
Inductive mworker : Type :=
| MSelect                          (* at the [select] of the loop *)
| MGot (path : gostring)           (* received [path], not yet read *)
| MPush (r : FileAnalysisResult)   (* blocked in [results <- r] *)
| MExit.                           (* returned, [wg.Done()] run *)

Record mstate : Type := mkMain {
  ctx_done : bool;                     (* [cancel()] has run *)
  todo : list gostring;                (* files the feeder has still to offer *)
  filePaths : list gostring;           (* buffer of the channel *)
  filePaths_closed : bool;
  mworkers : list mworker;
  received : list FileAnalysisResult;  (* what the filter stage has received *)
  mresults_closed : bool
}.

Inductive maction : Type :=
| Cancel                        (* the interrupt handler runs [cancel()] *)
| Feed                          (* feeder's select: [filePaths <- file] *)
| FeedCancelled                 (* feeder's select: [<-ctx.Done()], return *)
| FeedEnd                       (* feeder's loop over, deferred close *)
| Pull (i : nat)                (* worker's select: a path is received *)
| QuitClosed (i : nat)          (* worker's select: receive gives [!ok] *)
| QuitCancelled (i : nat)       (* worker's select: [<-ctx.Done()] *)
| Analyse (i : nat) (order : list nat)
| Deliver (i : nat)             (* [results <- bundle] *)
| CloseRes.                     (* [wg.Wait(); close(results)] *)

(** The worker an action belongs to. *)
Definition actor (a : maction) : option nat :=
  match a with
  | Pull i | QuitClosed i | QuitCancelled i | Analyse i _ | Deliver i => Some i
  | _ => None
  end.

Definition is_exit (w : mworker) : bool :=
  match w with MExit => true | _ => false end.

Definition set_mworker (s : mstate) (i : nat) (w : mworker) : mstate :=
  mkMain (ctx_done s) (todo s) (filePaths s) (filePaths_closed s)
         (<[i := w]> (mworkers s)) (received s) (mresults_closed s).

Definition main_step (a : maction) (s : mstate) : option mstate :=
  match a with
  | Cancel =>
      if ctx_done s then None
      else Some (mkMain true (todo s) (filePaths s) (filePaths_closed s)
                        (mworkers s) (received s) (mresults_closed s))
  | Feed =>
      match todo s with
      | file :: rest =>
          if negb (filePaths_closed s) && (len (filePaths s) <? 100)
          then Some (mkMain (ctx_done s) rest (filePaths s ++ [file])
                            (filePaths_closed s) (mworkers s) (received s)
                            (mresults_closed s))
          else None
      | [] => None
      end
  | FeedCancelled =>
      match todo s with
      | _ :: _ =>
          if ctx_done s && negb (filePaths_closed s)
          then Some (mkMain (ctx_done s) (todo s) (filePaths s) true
                            (mworkers s) (received s) (mresults_closed s))
          else None
      | [] => None
      end
  | FeedEnd =>
      match todo s with
      | [] =>
          if filePaths_closed s then None
          else Some (mkMain (ctx_done s) [] (filePaths s) true
                            (mworkers s) (received s) (mresults_closed s))
      | _ :: _ => None
      end
  | Pull i =>
      match mworkers s !! i, filePaths s with
      | Some MSelect, path :: rest =>
          Some (mkMain (ctx_done s) (todo s) rest (filePaths_closed s)
                       (<[i := MGot path]> (mworkers s)) (received s)
                       (mresults_closed s))
      | _, _ => None
      end
  | QuitClosed i =>
      match mworkers s !! i, filePaths s with
      | Some MSelect, [] =>
          if filePaths_closed s then Some (set_mworker s i MExit) else None
      | _, _ => None
      end
  | QuitCancelled i =>
      match mworkers s !! i with
      | Some MSelect =>
          if ctx_done s then Some (set_mworker s i MExit) else None
      | _ => None
      end
  | Analyse i order =>
      match mworkers s !! i with
      | Some (MGot path) =>
          let '(content, size, err) := readFileContent path in
          match err with
          | Some _ => Some (set_mworker s i MSelect)
          | None =>
              if bool_decide (completion_order main_analyzers order) then
                Some (set_mworker s i
                        (MPush {| FileName := filepath_Base path;
                                  Size := size;
                                  Results :=
                                    analyze_slots main_analyzers content
                                                  order |}))
              else None
          end
      | _ => None
      end
  | Deliver i =>
      match mworkers s !! i with
      | Some (MPush r) =>
          Some (mkMain (ctx_done s) (todo s) (filePaths s)
                       (filePaths_closed s) (<[i := MSelect]> (mworkers s))
                       (received s ++ [r]) (mresults_closed s))
      | _ => None
      end
  | CloseRes =>
      if forallb is_exit (mworkers s) && negb (mresults_closed s)
      then Some (mkMain (ctx_done s) (todo s) (filePaths s)
                        (filePaths_closed s) (mworkers s) (received s) true)
      else None
  end.

Fixpoint main_run (sched : list maction) (s : mstate) : option mstate :=
  match sched with
  | [] => Some s
  | a :: sched' =>
      match main_step a s with
      | Some s' => main_run sched' s'
      | None => None
      end
  end.

Definition main_start (files : list gostring) (workers : Z) : mstate :=
  mkMain false files [] false (replicate (Z.to_nat workers) MSelect) [] false.

(** *** The filter stage ([main.go], lines 244-262)

    [None] is the panic of a failed [r.Data.(int)]. *)
Fixpoint filter_show (results : list AnalysisResult) : option bool :=
  match results with
  | [] => Some true
  | r :: rest =>
      if bool_decide (NameAnalyzer r = runes "word_count") then
        match assert_int (Data r) with
        | None => None
        | Some n => if n <? 2 then Some false else filter_show rest
        end
      else filter_show rest
  end.

(** The bundles sent on [filteredResults] for the bundles received on
    [results], in the order received. *)
Fixpoint filter_stage (results : list FileAnalysisResult) :
    option (list FileAnalysisResult) :=
  match results with
  | [] => Some []
  | res :: rest =>
      match filter_show (Results res) with
      | None => None
      | Some show =>
          match filter_stage rest with
          | None => None
          | Some filteredResults =>
              Some (if show then res :: filteredResults else filteredResults)
          end
      end
  end.

(** *** The collecting loop and the report ([main.go], lines 265-307) *)

Record totals : Type := mkTotals {
  totalWords : Z;
  totalLines : Z;
  globalMap : gmap (list Z) Z
}.

(** [globalMap[word] += count]. *)
Definition add_count (globalMap : gmap (list Z) Z) (wc : list Z * Z) :
    gmap (list Z) Z :=
  <[wc.1 := int_add (default 0 (globalMap !! wc.1)) wc.2]> globalMap.

(** [for word, count := range freq { globalMap[word] += count }], the keys
    of [freq] visited in the order [range]. *)
Definition merge_in_order (globalMap : gmap (list Z) Z)
    (range : list (list Z * Z)) : gmap (list Z) Z :=
  foldl add_count globalMap range.

Definition merge_freq (globalMap freq : gmap (list Z) Z) : gmap (list Z) Z :=
  merge_in_order globalMap (map_to_list freq).

Fixpoint foldl_option {A B} (f : A → B → option A) (a : A) (l : list B) :
    option A :=
  match l with
  | [] => Some a
  | x :: l' =>
      match f a x with
      | Some a' => foldl_option f a' l'
      | None => None
      end
  end.

Definition collect_result (t : totals) (res : AnalysisResult) : option totals :=
  if bool_decide (NameAnalyzer res = runes "word_count") then
    match assert_int (Data res) with
    | Some n =>
        Some (mkTotals (int_add (totalWords t) n) (totalLines t) (globalMap t))
    | None => None
    end
  else if bool_decide (NameAnalyzer res = runes "line_count") then
    match assert_int (Data res) with
    | Some n =>
        Some (mkTotals (totalWords t) (int_add (totalLines t) n) (globalMap t))
    | None => None
    end
  else if bool_decide (NameAnalyzer res = runes "most_frequent_words") then
    match assert_freq (Data res) with
    | Some freq =>
        Some (mkTotals (totalWords t) (totalLines t)
                       (merge_freq (globalMap t) freq))
    | None => None
    end
  else Some t.

Definition collect (filteredResults : list FileAnalysisResult) : option totals :=
  foldl_option (λ t result, foldl_option collect_result t (Results result))
               (mkTotals 0 0 ∅) filteredResults.

(** [sort.Slice], which is not stable: the library promises a rearrangement
    of the slice in which no element is [less] than an earlier one
    ([no_inversion]). *)
Variable sort_Slice :
  (WordCount → WordCount → bool) → list WordCount → list WordCount.

Definition sort_Slice_contract : Prop :=
  ∀ l, sort_Slice count_greater l ≡ₚ l
       ∧ StronglySorted (no_inversion count_greater)
                        (sort_Slice count_greater l).

(** The words printed when [-top-words] is given; [range] is the order in
    which [range globalMap] visits the map. *)
Definition top_words (range : list (list Z * Z)) (topWords : Z) :
    list WordCount :=
  if 0 <? topWords then
    let words := foldl (λ words wc, words ++ [mkWordCount wc.1 wc.2]) [] range in
    let words := sort_Slice count_greater words in
    let n := if len words <? topWords then len words else topWords in
    take (Z.to_nat n) words
  else [].

(** ** Definitions used to state the properties *)

(** How often each word occurs, as the analyzer's map holds it: no entry
    for a word that does not occur. *)
Definition occurrence_entry (w : list Z) (ws : list (list Z)) : option Z :=
  if occurrences w ws =? 0 then None else Some (occurrences w ws).

(** What one file's bundle holds: the result of every analyzer, in the
    order of the analyzers. *)
Definition analyze_all (analyzers : list Analyzer) (content : list Z) :
    list AnalysisResult :=
  (λ a, Analyze a content) <$> analyzers.

(** The bundle of a file, when it can be read. *)
Definition file_bundle (analyzers : list Analyzer) (path : list Z) :
    option FileAnalysisResult :=
  let '(content, size, err) := readFileContent path in
  match err with
  | Some _ => None
  | None => Some {| FileName := filepath_Base path;
                    Size := size;
                    Results := analyze_all analyzers content |}
  end.

(** The bundles a worker has still to hand over. *)
Definition owed (analyzers : list Analyzer) (w : worker) :
    list FileAnalysisResult :=
  match w with
  | WGot path => omap (file_bundle analyzers) [path]
  | WSend r => [r]
  | WRecv | WDone => []
  end.

Record pool_inv (analyzers : list Analyzer) (files : list (list Z))
    (n : nat) (s : pool) : Prop := mkPoolInv {
  inv_account :
    out s ++ concat (owed analyzers <$> workers s)
          ++ omap (file_bundle analyzers) (feed s)
    ≡ₚ omap (file_bundle analyzers) files;
  inv_open :
    feed_closed s = false → Forall (λ w, is_done w = false) (workers s);
  inv_closed : feed_closed s = true → feed s = [];
  inv_results :
    results_closed s = true →
    feed_closed s = true ∧ forallb is_done (workers s) = true;
  inv_returned :
    ∀ ret, returned s = Some ret →
           results_closed s = true ∧ ret = (out s, None);
  inv_workers : length (workers s) = n
}.

(** A bundle with one result per analyzer, at the analyzer's index. *)
Definition bundle_complete (analyzers : list Analyzer)
    (r : FileAnalysisResult) : Prop :=
  ∃ content, Results r = analyze_all analyzers content.

Definition main_inv (s : mstate) : Prop :=
  Forall (bundle_complete main_analyzers) (received s)
  ∧ ∀ i r, mworkers s !! i = Some (MPush r) →
           bundle_complete main_analyzers r.

(** The specification's reading of the push: a worker that is pushing when
    the signal has fired leaves without delivering its bundle. *)
Definition push_abandoned_on_cancel (s : mstate) (i : nat) : Prop :=
  ∀ r, ctx_done s = true → mworkers s !! i = Some (MPush r) →
       ∃ a s', actor a = Some i ∧ main_step a s = Some s'
               ∧ mworkers s' !! i = Some MExit
               ∧ received s' = received s.

(** The bundle has one WordCount result, and it is [n]. *)
Definition has_word_count (r : FileAnalysisResult) (n : Z) : Prop :=
  ∃ before after,
    Results r =
      before ++ {| NameAnalyzer := runes "word_count"; Data := AnyInt n |}
             :: after
    ∧ Forall (λ x, NameAnalyzer x ≠ runes "word_count") (before ++ after).

(** The bundles whose count is at least 2, in the order of the input. *)
Fixpoint with_count_ge_2 (results : list FileAnalysisResult)
    (counts : list Z) : list FileAnalysisResult :=
  match results, counts with
  | r :: results', n :: counts' =>
      if 2 <=? n then r :: with_count_ge_2 results' counts'
      else with_count_ge_2 results' counts'
  | _, _ => []
  end.

(** Earlier entries have counts at least as large as later ones. *)
Definition by_descending_count (a b : WordCount) : Prop := Count b ≤ Count a.

(** A bundle whose only result is a word-frequency map. *)
Definition freq_bundle (name : list Z) (size : Z) (freq : gmap (list Z) Z) :
    FileAnalysisResult :=
  {| FileName := name; Size := size;
     Results := [ {| NameAnalyzer := runes "most_frequent_words";
                     Data := AnyFreq freq |} ] |}.

(** ** Two schedules for the examples

    [AnalyzeParallel] on [demo_files] with two workers: worker 1 skips the
    missing file and delivers the second file before worker 0 delivers the
    first. *)
Definition demo_schedule : list action :=
  [Hand 0; Hand 1; Work 1 [0; 1; 2]; Hand 1; Work 1 [2; 0; 1]; Push 1;
   Work 0 [1; 2; 0]; Push 0; CloseFeed; Exit 0; Exit 1; CloseResults;
   Return]%nat.

(** The pool of [main] on one file with one worker: the interrupt arrives
    when the worker has its bundle ready to push. *)
Definition demo_interrupted : list maction :=
  [Feed; Pull 0; Analyse 0 [0; 1; 2]; Cancel]%nat.

(** ** Definitions used to state further properties *)

Definition sum_Z (l : list Z) : Z := foldr Z.add 0 l.

(** [occurrence_entry] as the wrapping counters hold it. *)
Definition wrapped_entry (w : list Z) (ws : list (list Z)) : option Z :=
  if occurrences w ws =? 0 then None else Some (int_wrap (occurrences w ws)).

(** The bundles a worker of [main] has still to deliver. *)
Definition mowed (w : mworker) : list FileAnalysisResult :=
  match w with
  | MGot path => omap (file_bundle main_analyzers) [path]
  | MPush r => [r]
  | MSelect | MExit => []
  end.

(** Steps the pool of [main] can still take at most. *)
Definition mworker_weight (w : mworker) : nat :=
  match w with
  | MSelect => 1 | MGot _ => 3 | MPush _ => 2 | MExit => 0
  end%nat.

Definition main_weight (s : mstate) : nat :=
  (4 * length (todo s) + 3 * length (filePaths s)
   + sum_list (mworker_weight <$> mworkers s)
   + (if ctx_done s then 0 else 1)
   + (if filePaths_closed s then 0 else 1)
   + (if mresults_closed s then 0 else 1))%nat.

Record main_pool_inv (files : list (list Z)) (n : nat) (s : mstate) : Prop :=
  mkMainPoolInv {
  m_account :
    received s ++ concat (mowed <$> mworkers s)
      ++ omap (file_bundle main_analyzers) (filePaths s)
      ++ omap (file_bundle main_analyzers) (todo s)
    ≡ₚ omap (file_bundle main_analyzers) files;
  m_buffer : len (filePaths s) ≤ 100;
  m_order : (filePaths s ++ todo s) `suffix_of` files;
  m_results :
    mresults_closed s = true → forallb is_exit (mworkers s) = true;
  m_exit :
    ctx_done s = false →
    ∀ i, mworkers s !! i = Some MExit →
         filePaths s = [] ∧ filePaths_closed s = true;
  m_closed :
    ctx_done s = false → filePaths_closed s = true → todo s = [];
  m_workers : length (mworkers s) = n
}.

(** ** [dirTraversal] ([main.go], lines 78-123)

    Paths and extensions are compared byte by byte: here the elements of a
    string are its bytes. *)

(** [strings.HasSuffix]. *)
Definition HasSuffix (s suffix : gostring) : bool :=
  (len suffix <=? len s)
  && bool_decide (drop (length s - length suffix) s = suffix).

(** The closure [checkSize], applied to [info.Size()]. *)
Definition checkSize (minSize maxSize : Z) (size : Z) : bool :=
  if (0 <? minSize) && (size <? minSize) then false
  else if (0 <? maxSize) && (maxSize <? size) then false
  else true.

(** [info.IsDir()] of the [os.Stat] whose size and error [os_Stat_Size]
    gives. *)
Variable os_IsDir : gostring → bool.

(** One call of the function given to [filepath.WalkDir]: the path [p],
    the error [err], and what the callback reads of the entry [d]. *)
Record visit : Type := mkVisit {
  visit_path : gostring;
  visit_err : error;
  visit_IsDir : bool;            (* [d.IsDir()] *)
  visit_Name : gostring;         (* [d.Name()] *)
  visit_Info_Size : Z * error    (* [d.Info()], then [info.Size()] *)
}.

(** The calls [filepath.WalkDir] makes on a root, in its lexical order, as
    long as the callback returns nil (the callback of [dirTraversal]
    returns nil or an error of the operating system, never [SkipDir] or
    [SkipAll]). *)
Variable WalkDir_visits : gostring → list visit.

(** The callback of [dirTraversal]; [files] is the captured slice. *)
Definition walk_fn (ext : gostring) (minSize maxSize : Z)
    (files : list gostring) (v : visit) : list gostring * error :=
  match visit_err v with
  | Some e => (files, Some e)
  | None =>
      if visit_IsDir v then (files, None)
      else if negb (HasSuffix (visit_Name v) ext) then (files, None)
      else
        let '(size, err) := visit_Info_Size v in
        match err with
        | Some e => (files, Some e)
        | None =>
            if checkSize minSize maxSize size
            then (files ++ [visit_path v], None)
            else (files, None)
        end
  end.

(** [filepath.WalkDir]: the walk stops at the first error the callback
    returns, and returns it. *)
Fixpoint WalkDir (fn : list gostring → visit → list gostring * error)
    (visits : list visit) (files : list gostring) : list gostring * error :=
  match visits with
  | [] => (files, None)
  | v :: rest =>
      let '(files', err) := fn files v in
      match err with
      | Some e => (files', Some e)
      | None => WalkDir fn rest files'
      end
  end.

Definition dirTraversal (path ext : gostring) (minSize maxSize : Z) :
    list gostring * error :=
  let '(size, err) := os_Stat_Size path in
  match err with
  | Some e => ([], Some e)
  | None =>
      if negb (os_IsDir path) then
        if HasSuffix path ext && checkSize minSize maxSize size
        then ([path], None)
        else ([], None)
      else WalkDir (walk_fn ext minSize maxSize) (WalkDir_visits path) []
  end.

(** The error that ends the walk at a visit: the error the walk passes
    in, or the error of [d.Info()] for a file whose name ends in the
    extension. *)
Definition visit_fails (ext : gostring) (v : visit) : error :=
  match visit_err v with
  | Some e => Some e
  | None =>
      if negb (visit_IsDir v) && bool_decide (ext `suffix_of` visit_Name v)
      then (visit_Info_Size v).2 else None
  end.

(** A size is within the bounds, a bound that is not positive being no
    bound. *)
Definition size_within (minSize maxSize size : Z) : Prop :=
  (minSize ≤ 0 ∨ minSize ≤ size) ∧ (maxSize ≤ 0 ∨ size ≤ maxSize).

#[global] Instance size_within_dec minSize maxSize size :
  Decision (size_within minSize maxSize size).
Proof. unfold size_within. apply _. Defined.

(** Whether the callback lists the visited path: a file whose name ends in
    the extension and whose size is within the bounds. *)
Definition visit_listed (ext : gostring) (minSize maxSize : Z)
    (v : visit) : Prop :=
  visit_err v = None ∧ visit_IsDir v = false
  ∧ ext `suffix_of` visit_Name v
  ∧ (visit_Info_Size v).2 = None
  ∧ size_within minSize maxSize (visit_Info_Size v).1.

#[global] Instance visit_listed_dec ext minSize maxSize v :
  Decision (visit_listed ext minSize maxSize v).
Proof. unfold visit_listed. apply _. Defined.

(** The sum of the counts of a frequency map. *)
Definition sum_counts (freq : gmap (list Z) Z) : Z :=
  map_fold (λ _ count acc, count + acc) 0 freq.

(** An ASCII rune. *)
Definition is_ASCII (r : Z) : Prop := 0 ≤ r ≤ 127.

#[global] Instance is_ASCII_dec r : Decision (is_ASCII r).
Proof. unfold is_ASCII. apply _. Defined.

(** ** A directory and a full schedule for the examples

    The directory [docs] holds the three files of the concrete environment,
    a file of another extension and a sub-directory with one more file; in
    the directory [locked], [d.Info()] fails on the second file. *)
Definition demo_IsDir (path : gostring) : bool :=
  bool_decide (path = runes "docs") || bool_decide (path = runes "locked").

Definition demo_dir_Stat_Size (path : gostring) : Z * error :=
  if demo_IsDir path then (4096, None) else demo_Stat_Size path.

Definition demo_file_visit (path name : string) (size : Z) : visit :=
  mkVisit (runes path) None false (runes name) (size, None).

Definition demo_dir_visit (path name : string) : visit :=
  mkVisit (runes path) None true (runes name) (4096, None).

Definition demo_visits (path : gostring) : list visit :=
  if bool_decide (path = runes "docs") then
    [demo_dir_visit "docs" "docs";
     demo_file_visit "docs/a.txt" "a.txt" 3;
     demo_file_visit "docs/b.txt" "b.txt" 7;
     demo_file_visit "docs/c.txt" "c.txt" 9;
     demo_file_visit "docs/notes.md" "notes.md" 20;
     demo_dir_visit "docs/old" "old";
     demo_file_visit "docs/old/d.txt" "d.txt" 100]
  else if bool_decide (path = runes "locked") then
    [demo_dir_visit "locked" "locked";
     demo_file_visit "locked/x.txt" "x.txt" 5;
     mkVisit (runes "locked/y.txt") None false (runes "y.txt")
             (0, Some (runes "permission denied"));
     demo_file_visit "locked/z.txt" "z.txt" 5]
  else [].

(** The pool of [main] on [demo_files] with two workers, not interrupted:
    worker 1 skips the missing file and delivers the third file before
    worker 0 delivers the first. *)
Definition demo_full_run : list maction :=
  [Feed; Feed; Pull 0; Pull 1; Feed; FeedEnd; Analyse 1 []; Pull 1;
   Analyse 1 [2; 0; 1]; Deliver 1; Analyse 0 [0; 1; 2]; Deliver 0;
   QuitClosed 0; QuitClosed 1; CloseRes]%nat.

(** * Properties *)

(** ** The analyzers *)

Lemma int_add_small (a b : Z) :
  - 2 ^ 63 ≤ a + b ≤ int_max → int_add a b = a + b.
Proof.
  unfold int_add, int_wrap, int_max. intros H.
  rewrite Z.mod_small by lia. lia.
Qed.

Lemma split_at_cons_inv (sep : Z → bool) (s : list Z) :
  ∃ p ps, split_at sep s = p :: ps.
Proof.
  destruct s as [|r s]; simpl; [by eauto|].
  destruct (sep r); [by eauto|].
  destruct (split_at sep s); by eauto.
Qed.

(** The scan of [strings.Fields], started inside a field [w] or between
    fields, in terms of the pieces of the rest of the string. *)
Lemma fields_scan_split (s : list Z) :
  (∀ w acc,
     fields_scan s (Some w) acc =
     acc ++ match split_at IsSpace s with
            | p :: ps => (w ++ p) :: filter (λ t, t ≠ []) ps
            | [] => [w]
            end)
  ∧ (∀ acc,
       fields_scan s None acc =
       acc ++ filter (λ t, t ≠ []) (split_at IsSpace s)).
Proof.
  induction s as [|r s [IHin IHout]]; simpl.
  - split; intros; [by rewrite app_nil_r | by rewrite app_nil_r].
  - destruct (split_at_cons_inv IsSpace s) as (p & ps & Hs).
    destruct (IsSpace r); split; intros.
    + rewrite IHout, app_nil_r, <- app_assoc. done.
    + rewrite IHout. done.
    + rewrite IHin, Hs, <- app_assoc. done.
    + rewrite IHin, Hs. simpl.
      rewrite filter_cons_True by done. done.
Qed.

Lemma Fields_tokens (s : list Z) : Fields s = tokens s.
Proof. unfold Fields, tokens. by rewrite (proj2 (fields_scan_split s)). Qed.

(** No piece of a split holds a separator, and there is one piece more
    than there are separators. *)
Lemma split_at_pieces (sep : Z → bool) (s : list Z) :
  Forall (Forall (λ r, sep r = false)) (split_at sep s)
  ∧ length (split_at sep s) = S (length (filter (λ r, sep r = true) s)).
Proof.
  induction s as [|r s [IH1 IH2]]; simpl.
  - split; [by repeat constructor | done].
  - destruct (split_at_cons_inv sep s) as (p & ps & Hs).
    rewrite Hs in IH1, IH2 |- *. destruct (sep r) eqn:Hr.
    + rewrite filter_cons_True by done. simpl in IH2 |- *. split; [|lia].
      constructor; [constructor | done].
    + rewrite filter_cons_False by congruence. split; [|done].
      inversion IH1; subst. constructor; [by constructor | done].
Qed.

Lemma tokens_wellformed (s : list Z) :
  Forall (λ t, t ≠ [] ∧ Forall (λ r, IsSpace r = false) t) (tokens s).
Proof.
  unfold tokens. apply Forall_forall. intros t Ht.
  apply list_elem_of_filter in Ht as [Hne Hin]. split; [done|].
  pose proof (proj1 (split_at_pieces IsSpace s)) as H.
  rewrite Forall_forall in H. by apply H.
Qed.

Lemma split_at_length (sep : Z → bool) (s p : list Z) (ps : list (list Z)) :
  split_at sep s = p :: ps →
  (length p + length (filter (λ t, t ≠ []) ps) ≤ length s)%nat.
Proof.
  revert p ps. induction s as [|r s IH]; simpl; intros p ps Hs.
  - inversion Hs; subst. simpl. lia.
  - destruct (split_at_cons_inv sep s) as (p' & ps' & Hs').
    rewrite Hs' in Hs. specialize (IH _ _ Hs').
    destruct (sep r); inversion Hs; subst; simpl.
    + destruct p' as [|x p'].
      * rewrite filter_cons_False by (intros H'; by apply H'). simpl in IH. lia.
      * rewrite filter_cons_True by done. simpl in IH |- *. lia.
    + lia.
Qed.

Lemma tokens_length (s : list Z) : (length (tokens s) ≤ length s)%nat.
Proof.
  unfold tokens.
  destruct (split_at_cons_inv IsSpace s) as (p & ps & Hs). rewrite Hs.
  pose proof (split_at_length _ _ _ _ Hs) as H.
  destruct p as [|x p].
  - rewrite filter_cons_False by (intros H'; by apply H'). simpl in H. lia.
  - rewrite filter_cons_True by done. simpl in H |- *. lia.
Qed.

(** C6.  For every content the word-count analyzer returns the number of
    non-empty tokens of the content split on whitespace runs, under the name
    "word_count" (the tokens are the non-empty pieces between whitespace
    runes, none of which holds a whitespace rune); on
    "hello world\nhello go" that number is 4. *)
Theorem WordCount_counts_tokens :
  (∀ content : list Z,
     WordCount_Analyze content =
     {| NameAnalyzer := runes "word_count";
        Data := AnyInt (len (tokens content)) |})
  ∧ (∀ content : list Z,
       Forall (λ t, t ≠ [] ∧ Forall (λ r, IsSpace r = false) t)
              (tokens content))
  ∧ Data (WordCount_Analyze
            (runes "hello world" ++ [newline] ++ runes "hello go"))
    = AnyInt 4.
Proof.
  split; [|split].
  - intros content. unfold WordCount_Analyze. by rewrite Fields_tokens.
  - apply tokens_wellformed.
  - reflexivity.
Qed.

Lemma Count_newline_bounds (content : list Z) :
  0 ≤ Count_newline content ≤ len content.
Proof.
  unfold Count_newline, len.
  pose proof (length_filter (λ r, r = newline) content). lia.
Qed.

(** C7.  For every content (a Go string is shorter than the largest [int])
    the line-count analyzer returns the number of newline characters plus
    one, which is at least 1; on the empty content it returns 1. *)
Theorem LineCount_newlines_plus_one (content : list Z) :
  len content < int_max →
  LineCount_Analyze content =
    {| NameAnalyzer := runes "line_count";
       Data := AnyInt (Count_newline content + 1) |}
  ∧ 1 ≤ Count_newline content + 1
  ∧ Data (LineCount_Analyze []) = AnyInt 1.
Proof.
  intros Hlen. pose proof (Count_newline_bounds content) as Hc.
  split; [|split; [lia | reflexivity]].
  unfold LineCount_Analyze.
  rewrite int_add_small by (unfold int_max in Hlen |- *; lia). done.
Qed.

Lemma occurrences_bounds (w : list Z) (ws : list (list Z)) :
  0 ≤ occurrences w ws ≤ len ws.
Proof.
  unfold occurrences, len.
  pose proof (length_filter (λ t, t = w) ws). lia.
Qed.

Lemma occurrences_snoc (w k : list Z) (ws : list (list Z)) :
  occurrences w (ws ++ [k]) =
  occurrences w ws + (if decide (k = w) then 1 else 0).
Proof.
  unfold occurrences, len. rewrite filter_app, length_app.
  case_decide.
  - rewrite filter_cons_True by done. simpl. lia.
  - rewrite filter_cons_False by done. simpl. lia.
Qed.

Lemma foldl_incr_lookup (l pre : list (list Z)) (freq : gmap (list Z) Z) :
  len pre + len l ≤ int_max →
  (∀ w, freq !! w = occurrence_entry w pre) →
  ∀ w, foldl (λ freq word, incr freq (ToLower word)) freq l !! w
       = occurrence_entry w (pre ++ (ToLower <$> l)).
Proof.
  revert pre freq. induction l as [|x l IH]; intros pre freq Hlen Hpre w.
  - simpl. by rewrite app_nil_r.
  - rewrite fmap_cons, cons_middle, app_assoc. simpl. apply IH.
    + unfold len in Hlen |- *. rewrite length_app. simpl in Hlen |- *. lia.
    + clear w. intros w. unfold incr, occurrence_entry.
      rewrite occurrences_snoc.
      pose proof (occurrences_bounds (ToLower x) pre) as Hb.
      pose proof (occurrences_bounds w pre) as Hbw.
      unfold len in Hlen, Hb, Hbw. simpl in Hlen.
      case_decide as Hk.
      * subst w. rewrite lookup_insert_eq, Hpre. unfold occurrence_entry.
        destruct (occurrences (ToLower x) pre =? 0) eqn:E; simpl.
        -- apply Z.eqb_eq in E. rewrite E.
           rewrite int_add_small by (unfold int_max; lia). done.
        -- rewrite int_add_small by (unfold int_max in Hlen |- *; lia).
           destruct (occurrences (ToLower x) pre + 1 =? 0) eqn:E'; [lia|done].
      * rewrite lookup_insert_ne by done. rewrite Hpre, Z.add_0_r. done.
Qed.

(** C8.  For every content (a Go string is no longer than the largest
    [int]) the word-frequency analyzer returns the map that sends each
    lower-cased whitespace-delimited token to the number of its occurrences
    in the content, and holds no other key; on "Hello hello WORLD" the map is
    {"hello": 2, "world": 1}. *)
Theorem MostFrequentWords_counts_lowercased (content : list Z) :
  len content ≤ int_max →
  (∃ freq,
     MostFrequentWords_Analyze content =
       {| NameAnalyzer := runes "most_frequent_words"; Data := AnyFreq freq |}
     ∧ ∀ w, freq !! w = occurrence_entry w (ToLower <$> tokens content))
  ∧ Data (MostFrequentWords_Analyze (runes "Hello hello WORLD"))
    = AnyFreq {[ runes "hello" := 2; runes "world" := 1 ]}.
Proof.
  intros Hlen. split.
  - eexists. split; [reflexivity|]. intros w.
    rewrite Fields_tokens.
    rewrite (foldl_incr_lookup (tokens content) [] ∅); [done| |done].
    pose proof (tokens_length content). unfold len in Hlen |- *. simpl. lia.
  - vm_compute. reflexivity.
Qed.

(** ** The analysis of one file *)

Lemma analyze_appending_all (analyzers : list Analyzer) (content : list Z) :
  analyze_appending analyzers content = analyze_all analyzers content.
Proof.
  unfold analyze_appending, analyze_all.
  enough (∀ acc, foldl (λ analysisResults analyzer,
                          analysisResults ++ [Analyze analyzer content])
                       acc analyzers
                 = acc ++ ((λ a, Analyze a content) <$> analyzers)) as H
    by apply (H []).
  induction analyzers as [|a l IH]; intros acc; simpl.
  - by rewrite app_nil_r.
  - rewrite IH, <- app_assoc. done.
Qed.

Lemma store_slot_length analyzers content slots i :
  length (store_slot analyzers content slots i) = length slots.
Proof.
  unfold store_slot. destruct (analyzers !! i); [apply length_insert | done].
Qed.

(** After the stores of [order], slot [j] holds the result of analyzer [j]
    if [j] is in [order], and is untouched otherwise. *)
Lemma foldl_store_slot_lookup analyzers content (order : list nat) :
  ∀ (slots : list AnalysisResult) (j : nat),
    length slots = length analyzers →
    foldl (store_slot analyzers content) slots order !! j =
    if decide (j ∈ order)
    then (λ a, Analyze a content) <$> analyzers !! j
    else slots !! j.
Proof.
  induction order as [|i order IH]; intros slots j Hlen; cbn [foldl].
  - rewrite decide_False by apply not_elem_of_nil. done.
  - rewrite IH by (by rewrite store_slot_length).
    destruct (decide (j ∈ order)) as [Hin|Hnin].
    + rewrite decide_True by (by right). done.
    + unfold store_slot. destruct (decide (j = i)) as [->|Hne].
      * rewrite decide_True by (by left).
        destruct (analyzers !! i) as [a|] eqn:Ha; simpl.
        -- apply list_lookup_insert_eq. rewrite Hlen.
           by eapply lookup_lt_Some.
        -- apply lookup_ge_None. rewrite Hlen. by apply lookup_ge_None.
      * rewrite decide_False by (intros [?|?]%elem_of_cons; done).
        destruct (analyzers !! i); [by rewrite list_lookup_insert_ne | done].
Qed.

Lemma analyze_slots_all analyzers content order :
  completion_order analyzers order →
  analyze_slots analyzers content order = analyze_all analyzers content.
Proof.
  unfold completion_order, analyze_slots, analyze_all, make_slots.
  intros Hperm. apply list_eq. intros j.
  rewrite foldl_store_slot_lookup by apply length_replicate.
  rewrite list_lookup_fmap. case_decide as Hin; [done|].
  rewrite Hperm, elem_of_seq in Hin.
  rewrite (proj2 (lookup_ge_None analyzers j)) by lia.
  apply lookup_ge_None. rewrite length_replicate. lia.
Qed.

(** ** [AnalyzeSequential] *)

Lemma AnalyzeSequential_omap files analyzers :
  AnalyzeSequential files analyzers = (omap (file_bundle analyzers) files, None).
Proof.
  unfold AnalyzeSequential. f_equal.
  enough (∀ acc,
    foldl (λ results path,
             let '(content, size, err) := readFileContent path in
             match err with
             | Some _ => results
             | None =>
                 results ++
                 [ {| FileName := filepath_Base path;
                      Size := size;
                      Results := analyze_appending analyzers content |} ]
             end) acc files
    = acc ++ omap (file_bundle analyzers) files) as H by apply (H []).
  induction files as [|path files IH]; intros acc; simpl.
  - by rewrite app_nil_r.
  - rewrite IH. unfold file_bundle.
    destruct (readFileContent path) as [[content size] [e|]]; simpl.
    + done.
    + rewrite analyze_appending_all, <- app_assoc. done.
Qed.

(** ** The worker pool of [AnalyzeParallel] *)

Lemma concat_fmap_insert {A B} (f : A → list B) (ws : list A) i w w' :
  ws !! i = Some w →
  ∃ X Y, concat (f <$> ws) = X ++ f w ++ Y
         ∧ concat (f <$> <[i:=w']> ws) = X ++ f w' ++ Y.
Proof.
  revert i. induction ws as [|x ws IH]; intros [|i] Hi; simplify_eq/=.
  - exists [], (concat (f <$> ws)). done.
  - destruct (IH _ Hi) as (X & Y & -> & ->).
    exists (f x ++ X), Y. by rewrite <- !app_assoc.
Qed.

Lemma sum_list_fmap_insert {A} (f : A → nat) (ws : list A) i w w' :
  ws !! i = Some w →
  (sum_list (f <$> <[i:=w']> ws) + f w = sum_list (f <$> ws) + f w')%nat.
Proof.
  revert i. induction ws as [|x ws IH]; intros [|i] Hi; simplify_eq/=.
  - lia.
  - specialize (IH _ Hi). lia.
Qed.

Lemma forallb_is_done_lookup (ws : list worker) i w :
  forallb is_done ws = true → ws !! i = Some w → w = WDone.
Proof.
  intros Hall Hi. rewrite forallb_forall in Hall.
  apply list_elem_of_lookup_2, list_elem_of_In in Hi.
  specialize (Hall _ Hi). by destruct w.
Qed.

Lemma Forall_insert_not_done (ws : list worker) i w :
  Forall (λ w, is_done w = false) ws → is_done w = false →
  Forall (λ w, is_done w = false) (<[i:=w]> ws).
Proof.
  intros Hall Hw. destruct (decide (i < length ws)%nat).
  - by apply Forall_insert.
  - by rewrite list_insert_ge by lia.
Qed.

Lemma pool_inv_start analyzers files workers :
  pool_inv analyzers files (Z.to_nat workers)
           (AnalyzeParallel_start files workers).
Proof.
  split; simpl; try done.
  - assert (concat (owed analyzers <$> replicate (Z.to_nat workers) WRecv) = [])
      as -> by (induction (Z.to_nat workers); simpl; auto).
    done.
  - intros _. apply Forall_forall. by intros w [-> _]%elem_of_replicate.
  - apply length_replicate.
Qed.

Lemma pool_inv_step analyzers files n a s s' :
  pool_inv analyzers files n s →
  pool_step analyzers a s = Some s' →
  pool_inv analyzers files n s'.
Proof.
  intros [Hacc Hopen Hclosed Hres Hret Hlen] Hstep.
  destruct a as [i|i order|i| |i| |]; simpl in Hstep.
  - (* Hand *)
    destruct (feed s) as [|f rest] eqn:Hfeed; [done|].
    destruct (workers s !! i) as [[]|] eqn:Hi; simplify_eq.
    destruct (concat_fmap_insert (owed analyzers) _ _ _ (WGot f) Hi)
      as (X & Y & HX & HY).
    split; simpl.
    + rewrite HY. rewrite HX in Hacc. simpl in *. rewrite <- Hacc.
      destruct (file_bundle analyzers f); solve_Permutation.
    + intros Hc. by apply Forall_insert_not_done; [apply Hopen|].
    + intros Hc. by specialize (Hclosed Hc).
    + intros Hr. destruct (Hres Hr) as [Hc _]. by specialize (Hclosed Hc).
    + done.
    + by rewrite length_insert.
  - (* Work *)
    destruct (workers s !! i) as [[|path| |]|] eqn:Hi; try done.
    assert (∃ w', s' = set_worker s i w' ∧ is_done w' = false
                  ∧ owed analyzers w' = owed analyzers (WGot path))
      as (w' & -> & Hw' & Howed).
    { simpl. unfold file_bundle.
      destruct (readFileContent path) as [[content size] [e|]].
      - exists WRecv. by simplify_eq.
      - case_bool_decide as Ho; [|done]. simplify_eq.
        eexists. split; [done|]. split; [done|].
        simpl. by rewrite analyze_slots_all. }
    destruct (concat_fmap_insert (owed analyzers) _ _ _ w' Hi)
      as (X & Y & HX & HY).
    split; simpl.
    + rewrite HY, Howed, <- HX. done.
    + intros Hc. by apply Forall_insert_not_done; [apply Hopen|].
    + done.
    + intros Hr. destruct (Hres Hr) as [_ Hall].
      by pose proof (forallb_is_done_lookup _ _ _ Hall Hi).
    + done.
    + by rewrite length_insert.
  - (* Push *)
    destruct (workers s !! i) as [[| |r|]|] eqn:Hi; try done.
    destruct (results_closed s) eqn:Hrc; simplify_eq.
    destruct (concat_fmap_insert (owed analyzers) _ _ _ WRecv Hi)
      as (X & Y & HX & HY).
    split; simpl.
    + rewrite HY. rewrite HX in Hacc. simpl in *. rewrite <- Hacc.
      solve_Permutation.
    + intros Hc. by apply Forall_insert_not_done; [apply Hopen|].
    + done.
    + done.
    + intros ret Hr. destruct (Hret _ Hr) as [? _]. congruence.
    + by rewrite length_insert.
  - (* CloseFeed *)
    destruct (feed s) eqn:Hfeed; [|done].
    destruct (feed_closed s) eqn:Hfc; simplify_eq.
    split; simpl; try done.
    intros Hr. destruct (Hres Hr). congruence.
  - (* Exit *)
    destruct (workers s !! i) as [[]|] eqn:Hi; try done.
    destruct (feed_closed s) eqn:Hfc; simplify_eq.
    destruct (concat_fmap_insert (owed analyzers) _ _ _ WDone Hi)
      as (X & Y & HX & HY).
    split; simpl.
    + rewrite HY. rewrite HX in Hacc. exact Hacc.
    + congruence.
    + intros _. by apply Hclosed.
    + intros Hr. destruct (Hres Hr) as [_ Hall].
      by pose proof (forallb_is_done_lookup _ _ _ Hall Hi).
    + done.
    + by rewrite length_insert.
  - (* CloseResults *)
    destruct (feed_closed s) eqn:Hfc; [|done].
    destruct (forallb is_done (workers s)) eqn:Hall; [|done].
    destruct (results_closed s) eqn:Hrc; simpl in Hstep; simplify_eq.
    split; simpl; try done.
    intros ret Hr. by destruct (Hret _ Hr).
  - (* Return *)
    destruct (returned s) eqn:Hr; [done|].
    destruct (results_closed s) eqn:Hrc; simplify_eq.
    split; simpl; try done.
    intros ret ?. by simplify_eq.
Qed.

Lemma pool_inv_run analyzers files n sched s s' :
  pool_inv analyzers files n s →
  pool_run analyzers sched s = Some s' →
  pool_inv analyzers files n s'.
Proof.
  revert s. induction sched as [|a sched IH]; intros s Hinv Hrun; simpl in *.
  - by simplify_eq.
  - destruct (pool_step analyzers a s) as [s1|] eqn:Hstep; [|done].
    eauto using pool_inv_step.
Qed.

(** When the call has returned, it has returned the bundles of the
    readable files, each once, and no error. *)
Lemma pool_inv_returned analyzers files n s ret :
  pool_inv analyzers files n s →
  returned s = Some ret →
  ret.1 ≡ₚ omap (file_bundle analyzers) files ∧ ret.2 = None.
Proof.
  intros [Hacc Hopen Hclosed Hres Hret Hlen] Hr.
  destruct (Hret _ Hr) as [Hrc ->]. destruct (Hres Hrc) as [Hfc Hall].
  rewrite (Hclosed Hfc) in Hacc. simpl in *. split; [|done].
  assert (concat (owed analyzers <$> workers s) = []) as Hnone.
  { clear -Hall. induction (workers s) as [|w ws IH]; simpl in *; [done|].
    apply andb_prop in Hall as [Hw Hws]. destruct w; try done.
    simpl. auto. }
  by rewrite Hnone, !app_nil_r in Hacc.
Qed.

Lemma pool_step_weight analyzers a s s' :
  pool_step analyzers a s = Some s' → (pool_weight s' < pool_weight s)%nat.
Proof.
  intros Hstep. unfold pool_weight.
  destruct a as [i|i order|i| |i| |]; simpl in Hstep.
  - destruct (feed s) as [|f rest] eqn:Hfeed; [done|].
    destruct (workers s !! i) as [[]|] eqn:Hi; simplify_eq. simpl.
    pose proof (sum_list_fmap_insert worker_weight _ _ _ (WGot f) Hi).
    simpl in *. lia.
  - destruct (workers s !! i) as [[|path| |]|] eqn:Hi; try done.
    destruct (readFileContent path) as [[content size] [e|]].
    + simplify_eq. simpl.
      pose proof (sum_list_fmap_insert worker_weight _ _ _ WRecv Hi).
      simpl in *. lia.
    + case_bool_decide; simplify_eq. simpl.
      match goal with
      | |- context [<[i:=?w]> (workers s)] =>
          pose proof (sum_list_fmap_insert worker_weight _ _ _ w Hi)
      end.
      simpl in *. lia.
  - destruct (workers s !! i) as [[| |r|]|] eqn:Hi; try done.
    destruct (results_closed s) eqn:Hrc; simplify_eq. simpl.
    pose proof (sum_list_fmap_insert worker_weight _ _ _ WRecv Hi).
    simpl in *. lia.
  - destruct (feed s) eqn:Hfeed; [|done].
    destruct (feed_closed s) eqn:Hfc; simplify_eq. simpl. lia.
  - destruct (workers s !! i) as [[]|] eqn:Hi; try done.
    destruct (feed_closed s) eqn:Hfc; simplify_eq. simpl. rewrite Hfc.
    pose proof (sum_list_fmap_insert worker_weight _ _ _ WDone Hi).
    simpl in *. lia.
  - destruct (feed_closed s) eqn:Hfc; [|done].
    destruct (forallb is_done (workers s)) eqn:Hall; [|done].
    destruct (results_closed s) eqn:Hrc; simpl in Hstep; simplify_eq.
    simpl. lia.
  - destruct (returned s) eqn:Hr; [done|].
    destruct (results_closed s) eqn:Hrc; simplify_eq. simpl. lia.
Qed.

Lemma pool_run_weight analyzers sched s s' :
  pool_run analyzers sched s = Some s' →
  (length sched + pool_weight s' ≤ pool_weight s)%nat.
Proof.
  revert s. induction sched as [|a sched IH]; intros s Hrun; simpl in *.
  - simplify_eq. lia.
  - destruct (pool_step analyzers a s) as [s1|] eqn:Hstep; [|done].
    apply pool_step_weight in Hstep. apply IH in Hrun. lia.
Qed.

Lemma pool_weight_start files workers :
  pool_weight (AnalyzeParallel_start files workers)
  = (3 * length files + Z.to_nat workers + 3)%nat.
Proof.
  unfold pool_weight, AnalyzeParallel_start. simpl.
  assert (sum_list (worker_weight <$> replicate (Z.to_nat workers) WRecv)
          = Z.to_nat workers) as ->
    by (induction (Z.to_nat workers); simpl; auto).
  lia.
Qed.

(** Every worker is in one of its four places. *)
Lemma workers_cases (ws : list worker) :
  (∃ i path, ws !! i = Some (WGot path))
  ∨ (∃ i r, ws !! i = Some (WSend r))
  ∨ (∃ i, ws !! i = Some WRecv)
  ∨ forallb is_done ws = true.
Proof.
  induction ws as [|w ws IH]; [by right; right; right|].
  destruct w as [|path|r|].
  - right; right; left. by exists 0%nat.
  - left. by exists 0%nat, path.
  - right; left. by exists 0%nat, r.
  - destruct IH as [(i & p & H)|[(i & r & H)|[(i & H)|H]]].
    + left. by exists (S i), p.
    + right; left. by exists (S i), r.
    + right; right; left. by exists (S i).
    + by right; right; right.
Qed.

(** No deadlock: with at least one worker the pool can always take a step
    until the call has returned. *)
Lemma pool_progress analyzers files n s :
  pool_inv analyzers files n s → (0 < n)%nat → returned s = None →
  ∃ a s', pool_step analyzers a s = Some s'.
Proof.
  intros [Hacc Hopen Hclosed Hres Hret Hlen] Hn Hr.
  destruct (workers_cases (workers s))
    as [(i & p & Hi)|[(i & r & Hi)|[(i & Hi)|Hall]]].
  - exists (Work i (seq 0 (length analyzers))). simpl. rewrite Hi.
    destruct (readFileContent p) as [[content size] [e|]]; [by eauto|].
    rewrite bool_decide_true by (by unfold completion_order). by eauto.
  - exists (Push i). simpl. rewrite Hi.
    destruct (results_closed s) eqn:Hrc; [|by eauto].
    destruct (Hres eq_refl) as [_ Hall].
    by pose proof (forallb_is_done_lookup _ _ _ Hall Hi).
  - destruct (feed_closed s) eqn:Hfc.
    + exists (Exit i). simpl. rewrite Hi, Hfc. by eauto.
    + destruct (feed s) as [|f rest] eqn:Hfeed.
      * exists CloseFeed. simpl. rewrite Hfeed, Hfc. by eauto.
      * exists (Hand i). simpl. rewrite Hfeed, Hi. by eauto.
  - destruct (feed_closed s) eqn:Hfc.
    + destruct (results_closed s) eqn:Hrc.
      * exists Return. simpl. rewrite Hr, Hrc. by eauto.
      * exists CloseResults. simpl. rewrite Hfc, Hall, Hrc. by eauto.
    + specialize (Hopen eq_refl).
      destruct (workers s) as [|w ws]; [simpl in Hlen; lia|].
      inversion Hopen; subst. simpl in Hall.
      apply andb_prop in Hall as [Hw _]. congruence.
Qed.

(** Every reachable state can be run on to the return of the call. *)
Lemma pool_completes analyzers files n :
  (0 < n)%nat →
  ∀ s, pool_inv analyzers files n s →
       ∃ sched s' ret,
         pool_run analyzers sched s = Some s' ∧ returned s' = Some ret.
Proof.
  intros Hn.
  enough (∀ k s, (pool_weight s < k)%nat → pool_inv analyzers files n s →
                 ∃ sched s' ret,
                   pool_run analyzers sched s = Some s'
                   ∧ returned s' = Some ret) as H
    by (intros s; apply (H (S (pool_weight s))); lia).
  induction k as [|k IH]; intros s Hk Hinv; [lia|].
  destruct (returned s) as [ret|] eqn:Hr.
  - by exists [], s, ret.
  - destruct (pool_progress _ _ _ _ Hinv Hn Hr) as (a & s1 & Hstep).
    pose proof (pool_step_weight _ _ _ _ Hstep) as Hlt.
    destruct (IH s1 ltac:(lia) (pool_inv_step _ _ _ _ _ _ Hinv Hstep))
      as (sched & s' & ret & Hrun & Hret).
    exists (a :: sched), s', ret. simpl. by rewrite Hstep.
Qed.

Lemma omap_file_bundle_readable analyzers files :
  Forall (λ path, (readFileContent path).2 = None) files →
  Forall2 (λ path r, file_bundle analyzers path = Some r)
          files (omap (file_bundle analyzers) files).
Proof.
  induction 1 as [|path files Hp _ IH]; simpl; [constructor|].
  destruct (file_bundle analyzers path) as [r|] eqn:E.
  - by constructor.
  - unfold file_bundle in E.
    destruct (readFileContent path) as [[content size] [e|]]; done.
Qed.

Lemma omap_file_bundle_unreadable analyzers files :
  Forall (λ path, (readFileContent path).2 ≠ None) files →
  omap (file_bundle analyzers) files = [].
Proof.
  induction 1 as [|path files Hp _ IH]; simpl; [done|].
  destruct (file_bundle analyzers path) as [r|] eqn:E; [|done].
  unfold file_bundle in E.
  destruct (readFileContent path) as [[content size] [e|]]; done.
Qed.

(** C9.  [AnalyzeSequential] returns, in the order of the input, the bundle
    of every file that can be read: a file whose read fails is left out and
    the files after it are still processed, so the result for
    [before ++ bad :: after] is the result for [before] followed by the
    result for [after]. *)
Theorem AnalyzeSequential_in_order_skipping_unreadable
    (analyzers : list Analyzer) (before after : list (list Z)) (bad : list Z) :
  (readFileContent bad).2 ≠ None →
  (∀ files,
     (AnalyzeSequential files analyzers).1 = omap (file_bundle analyzers) files)
  ∧ (AnalyzeSequential (before ++ bad :: after) analyzers).1
    = (AnalyzeSequential before analyzers).1
      ++ (AnalyzeSequential after analyzers).1
  ∧ (∀ files,
       Forall (λ path, (readFileContent path).2 = None) files →
       FileName <$> (AnalyzeSequential files analyzers).1
       = filepath_Base <$> files).
Proof.
  intros Hbad. split; [|split].
  - intros files. by rewrite AnalyzeSequential_omap.
  - rewrite !AnalyzeSequential_omap. simpl.
    rewrite omap_app. simpl.
    destruct (file_bundle analyzers bad) as [r|] eqn:E; [|done].
    unfold file_bundle in E.
    destruct (readFileContent bad) as [[content size] [e|]]; done.
  - intros files Hok. rewrite AnalyzeSequential_omap. simpl.
    pose proof (omap_file_bundle_readable analyzers files Hok) as H.
    clear Hok. induction H as [|path r files rs Hr _ IH]; simpl; [done|].
    f_equal; [|done]. unfold file_bundle in Hr.
    destruct (readFileContent path) as [[content size] [e|]]; by simplify_eq.
Qed.

(** C1.  With at least one worker, [AnalyzeParallel] returns under every
    schedule of its goroutines (no schedule gets stuck before the return,
    and none takes more than [3 * len(files) + workers + 3] steps), and what
    it returns is a rearrangement of what [AnalyzeSequential] returns for the
    same files; when every file can be read, that is the bundle of every
    file exactly once. *)
Theorem AnalyzeParallel_same_bundles_as_sequential
    (files : list (list Z)) (analyzers : list Analyzer) (workers : Z) :
  1 ≤ workers →
  (∃ ret, AnalyzeParallel files analyzers workers ret)
  ∧ (∀ ret,
       AnalyzeParallel files analyzers workers ret →
       ret.1 ≡ₚ (AnalyzeSequential files analyzers).1
       ∧ (Forall (λ path, (readFileContent path).2 = None) files →
          ∃ bundles,
            Forall2 (λ path r, file_bundle analyzers path = Some r)
                    files bundles
            ∧ ret.1 ≡ₚ bundles))
  ∧ (∀ sched s,
       pool_run analyzers sched (AnalyzeParallel_start files workers) = Some s →
       (length sched ≤ 3 * length files + Z.to_nat workers + 3)%nat
       ∧ (returned s = None → ∃ a s', pool_step analyzers a s = Some s')).
Proof.
  intros Hw. assert (0 < Z.to_nat workers)%nat as Hn by lia.
  pose proof (pool_inv_start analyzers files workers) as Hstart.
  split; [|split].
  - destruct (pool_completes analyzers files (Z.to_nat workers) Hn
                _ Hstart) as (sched & s' & ret & Hrun & Hret).
    exists ret, sched, s'. done.
  - intros ret (sched & s & Hrun & Hret).
    pose proof (pool_inv_run _ _ _ _ _ _ Hstart Hrun) as Hinv.
    destruct (pool_inv_returned _ _ _ _ _ Hinv Hret) as [Hperm _].
    rewrite AnalyzeSequential_omap. simpl. split; [done|].
    intros Hok. eexists. split; [|exact Hperm].
    by apply omap_file_bundle_readable.
  - intros sched s Hrun. split.
    + apply pool_run_weight in Hrun. rewrite pool_weight_start in Hrun. lia.
    + intros Hr. eapply pool_progress; [|exact Hn|done].
      eapply pool_inv_run; eauto.
Qed.

(** C10.  [AnalyzeSequential] returns a nil error for every input, and with
    at least one worker [AnalyzeParallel] returns, from every state it can
    reach, and never returns a non-nil error; when every read fails both
    return no bundle and a nil error. *)
Theorem Analyze_error_is_always_nil
    (files : list (list Z)) (analyzers : list Analyzer) (workers : Z) :
  1 ≤ workers →
  (AnalyzeSequential files analyzers).2 = None
  ∧ (∃ results, AnalyzeParallel files analyzers workers (results, None))
  ∧ (∀ ret, AnalyzeParallel files analyzers workers ret → ret.2 = None)
  ∧ (∀ sched s,
       pool_run analyzers sched (AnalyzeParallel_start files workers) = Some s →
       ∃ sched' s' results,
         pool_run analyzers sched' s = Some s'
         ∧ returned s' = Some (results, None))
  ∧ (Forall (λ path, (readFileContent path).2 ≠ None) files →
     AnalyzeSequential files analyzers = ([], None)
     ∧ ∀ ret, AnalyzeParallel files analyzers workers ret → ret = ([], None)).
Proof.
  intros Hw. assert (0 < Z.to_nat workers)%nat as Hn by lia.
  pose proof (pool_inv_start analyzers files workers) as Hstart.
  assert (∀ sched s,
    pool_run analyzers sched (AnalyzeParallel_start files workers) = Some s →
    ∃ sched' s' results,
      pool_run analyzers sched' s = Some s'
      ∧ returned s' = Some (results, None)) as Hcomplete.
  { intros sched s Hrun.
    pose proof (pool_inv_run _ _ _ _ _ _ Hstart Hrun) as Hinv.
    destruct (pool_completes analyzers files (Z.to_nat workers) Hn
                _ Hinv) as (sched' & s' & [results err] & Hrun' & Hret).
    pose proof (pool_inv_run _ _ _ _ _ _ Hinv Hrun') as Hinv'.
    destruct (pool_inv_returned _ _ _ _ _ Hinv' Hret) as [_ Herr].
    simpl in Herr. subst err. by exists sched', s', results. }
  assert (∀ ret, AnalyzeParallel files analyzers workers ret →
                 ret.1 ≡ₚ omap (file_bundle analyzers) files ∧ ret.2 = None)
    as Hret.
  { intros ret (sched & s & Hrun & Hret).
    eapply pool_inv_returned; [|done]. eapply pool_inv_run; eauto. }
  split; [done|]. split; [|split; [|split]].
  - destruct (Hcomplete [] _ eq_refl) as (sched & s & results & Hrun & Hr).
    exists results, sched, s. done.
  - intros ret Hp. by apply Hret.
  - done.
  - intros Hbad. rewrite AnalyzeSequential_omap.
    rewrite (omap_file_bundle_unreadable _ _ Hbad). split; [done|].
    intros [results err] Hp. destruct (Hret _ Hp) as [Hperm Herr].
    simpl in *. rewrite (omap_file_bundle_unreadable _ _ Hbad) in Hperm.
    apply Permutation_nil_r in Hperm. by subst.
Qed.

(** ** No partial bundle *)

Lemma file_bundle_complete analyzers path r :
  file_bundle analyzers path = Some r → bundle_complete analyzers r.
Proof.
  unfold file_bundle. intros H.
  destruct (readFileContent path) as [[content size] [e|]]; simplify_eq.
  by exists content.
Qed.

Lemma pool_out_complete analyzers files workers sched s :
  pool_run analyzers sched (AnalyzeParallel_start files workers) = Some s →
  Forall (bundle_complete analyzers) (out s).
Proof.
  intros Hrun.
  pose proof (pool_inv_run _ _ _ _ _ _
                (pool_inv_start analyzers files workers) Hrun) as [Hacc].
  apply Forall_forall. intros r Hr.
  assert (r ∈ omap (file_bundle analyzers) files) as Hin.
  { rewrite <- Hacc. apply elem_of_app. by left. }
  apply list_elem_of_omap in Hin as (path & _ & Hb).
  by eapply file_bundle_complete.
Qed.

Lemma main_inv_step a s s' :
  main_inv s → main_step a s = Some s' → main_inv s'.
Proof.
  intros [Hrecv Hpush] Hstep. unfold main_inv.
  destruct a as [ | | | |i|i|i|i order|i| ]; simpl in Hstep;
    repeat case_match; simplify_eq; simpl; try done;
    (split; [try done|]);
    try (intros ? ? [(_ & ? & _)|[_ ?]]%list_lookup_insert_Some;
         simplify_eq; by eauto).
  - intros ? ? [(_ & ? & _)|[_ ?]]%list_lookup_insert_Some;
      simplify_eq; [|by eauto].
    eapply (file_bundle_complete _ path). unfold file_bundle.
    match goal with H : readFileContent _ = _ |- _ => rewrite H end.
    by rewrite analyze_slots_all by
      (by match goal with H : bool_decide _ = true |- _ =>
            apply bool_decide_eq_true_1 in H end).
  - apply Forall_app. split; [done|]. constructor; [|done]. by eauto.
Qed.

Lemma main_inv_run sched s s' :
  main_inv s → main_run sched s = Some s' → main_inv s'.
Proof.
  revert s. induction sched as [|a sched IH]; intros s Hinv Hrun; simpl in *.
  - by simplify_eq.
  - destruct (main_step a s) as [s1|] eqn:Hstep; [|done].
    eauto using main_inv_step.
Qed.

Lemma main_inv_start files workers : main_inv (main_start files workers).
Proof.
  split; simpl; [constructor|].
  intros i r [? _]%lookup_replicate. done.
Qed.

(** C2.  Whatever the order in which the analyzer goroutines of a file
    complete, the slots hold exactly one result per configured analyzer, the
    result of analyzer [i] at index [i]; the loop of [AnalyzeSequential]
    builds the same sequence; and every bundle that [AnalyzeParallel] or the
    pool of [main] has emitted, in any reachable state, is such a complete
    sequence for its file. *)
Theorem results_one_per_analyzer_in_order
    (analyzers : list Analyzer) (content : list Z) (order : list nat) :
  completion_order analyzers order →
  analyze_slots analyzers content order = analyze_all analyzers content
  ∧ analyze_appending analyzers content = analyze_all analyzers content
  ∧ length (analyze_slots analyzers content order) = length analyzers
  ∧ (∀ i a, analyzers !! i = Some a →
            analyze_slots analyzers content order !! i
            = Some (Analyze a content))
  ∧ (∀ files workers sched s,
       pool_run analyzers sched (AnalyzeParallel_start files workers) = Some s →
       Forall (bundle_complete analyzers) (out s))
  ∧ (∀ files workers sched s,
       main_run sched (main_start files workers) = Some s →
       Forall (bundle_complete main_analyzers) (received s)).
Proof.
  intros Horder.
  pose proof (analyze_slots_all analyzers content order Horder) as Hall.
  split; [done|]. split; [apply analyze_appending_all|].
  split; [by rewrite Hall; unfold analyze_all; rewrite length_fmap|].
  split; [|split].
  - intros i a Hi. rewrite Hall. unfold analyze_all.
    by rewrite list_lookup_fmap, Hi.
  - intros files workers sched s. apply pool_out_complete.
  - intros files workers sched s Hrun.
    by destruct (main_inv_run _ _ _ (main_inv_start files workers) Hrun).
Qed.

(** ** Cancellation in the pool of [main] *)

Lemma main_step_exit_only_at_select s j a s' :
  main_step a s = Some s' → mworkers s' !! j = Some MExit →
  mworkers s !! j = Some MExit
  ∨ (mworkers s !! j = Some MSelect
     ∧ (a = QuitCancelled j ∧ ctx_done s = true
        ∨ a = QuitClosed j ∧ filePaths s = [] ∧ filePaths_closed s = true)).
Proof.
  intros Hstep Hj.
  destruct a as [ | | | |i|i|i|i order|i| ]; simpl in Hstep;
    repeat case_match; simplify_eq; simpl in *; auto;
    apply list_lookup_insert_Some in Hj as [(? & ? & _)|[_ ?]];
    simplify_eq; auto 10.
Qed.

Lemma main_step_analysis_completes s j path a s' :
  mworkers s !! j = Some (MGot path) → actor a = Some j →
  main_step a s = Some s' →
  ∃ order,
    a = Analyse j order
    ∧ mworkers s' !! j
      = Some (match file_bundle main_analyzers path with
              | Some b => MPush b
              | None => MSelect
              end).
Proof.
  intros Hj Ha Hstep.
  destruct a as [ | | | |i|i|i|i order|i| ]; simplify_eq/=;
    rewrite Hj in Hstep; try done.
  exists order. split; [done|]. unfold file_bundle.
  destruct (readFileContent path) as [[content size] [e|]]; simplify_eq/=.
  - apply list_lookup_insert_eq. by eapply lookup_lt_Some.
  - case_bool_decide as Ho; simplify_eq/=.
    rewrite analyze_slots_all by done.
    apply list_lookup_insert_eq. by eapply lookup_lt_Some.
Qed.

Lemma main_step_pushing s i r a s' :
  mworkers s !! i = Some (MPush r) → actor a = Some i →
  main_step a s = Some s' →
  a = Deliver i
  ∧ received s' = received s ++ [r]
  ∧ mworkers s' !! i = Some MSelect
  ∧ ctx_done s' = ctx_done s.
Proof.
  intros Hi Ha Hstep.
  assert (i < length (mworkers s))%nat as Hlt by (by eapply lookup_lt_Some).
  destruct a as [ | | | |k|k|k|k order|k| ]; simplify_eq/=;
    rewrite Hi in Hstep; simplify_eq/=.
  by rewrite list_lookup_insert_eq.
Qed.

(** C3, as the code has it.  The signal is checked where a worker pulls the
    next path and not where it pushes: a worker that holds a bundle can only
    complete the push, whether the signal has fired or not, and is then back
    at the pull, where it may leave once the signal has fired; a worker
    leaves only from the pull; and a worker that has received a path can
    only finish the analysis of that file. *)
Theorem push_completes_whether_cancelled_or_not
    (s : mstate) (i : nat) (r : FileAnalysisResult) :
  mworkers s !! i = Some (MPush r) →
  (∃ s', main_step (Deliver i) s = Some s')
  ∧ (∀ a s', actor a = Some i → main_step a s = Some s' →
             a = Deliver i
             ∧ received s' = received s ++ [r]
             ∧ mworkers s' !! i = Some MSelect
             ∧ ctx_done s' = ctx_done s)
  ∧ (∀ s', main_step (Deliver i) s = Some s' → ctx_done s = true →
           main_step (QuitCancelled i) s' = Some (set_mworker s' i MExit))
  ∧ (∀ s0 j a s',
       main_step a s0 = Some s' → mworkers s' !! j = Some MExit →
       mworkers s0 !! j = Some MExit
       ∨ (mworkers s0 !! j = Some MSelect
          ∧ (a = QuitCancelled j ∧ ctx_done s0 = true
             ∨ a = QuitClosed j ∧ filePaths s0 = []
               ∧ filePaths_closed s0 = true)))
  ∧ (∀ s0 j path a s',
       mworkers s0 !! j = Some (MGot path) → actor a = Some j →
       main_step a s0 = Some s' →
       ∃ order,
         a = Analyse j order
         ∧ mworkers s' !! j
           = Some (match file_bundle main_analyzers path with
                   | Some b => MPush b
                   | None => MSelect
                   end)).
Proof.
  intros Hi.
  assert (i < length (mworkers s))%nat as Hlt by (by eapply lookup_lt_Some).
  split; [|split; [|split; [|split]]].
  - simpl. rewrite Hi. by eauto.
  - intros a s'. by apply main_step_pushing.
  - intros s' Hstep Hdone. simpl in Hstep. rewrite Hi in Hstep.
    simplify_eq/=. by rewrite list_lookup_insert_eq, Hdone.
  - apply main_step_exit_only_at_select.
  - apply main_step_analysis_completes.
Qed.

(** ** The filter stage *)

Lemma filter_show_other (results : list AnalysisResult) :
  Forall (λ x, NameAnalyzer x ≠ runes "word_count") results →
  filter_show results = Some true.
Proof.
  induction 1 as [|x l Hx _ IH]; cbn [filter_show]; [done|].
  by rewrite bool_decide_false.
Qed.

Lemma filter_show_word_count (r : FileAnalysisResult) (n : Z) :
  has_word_count r n → filter_show (Results r) = Some (2 <=? n).
Proof.
  intros (before & after & -> & Hother).
  apply Forall_app in Hother as [Hb Ha].
  induction Hb as [|x l Hx _ IH];
    cbn [filter_show app NameAnalyzer Data assert_int].
  - rewrite bool_decide_true by done.
    destruct (Z.ltb_spec n 2), (Z.leb_spec 2 n); try lia; [done|].
    by apply filter_show_other.
  - by rewrite bool_decide_false.
Qed.

Lemma file_bundle_word_count (path : list Z) (r : FileAnalysisResult) :
  file_bundle main_analyzers path = Some r →
  has_word_count r (len (tokens (readFileContent path).1.1)).
Proof.
  unfold file_bundle. intros H.
  destruct (readFileContent path) as [[content size] [e|]]; simplify_eq/=.
  exists []. eexists. rewrite <- Fields_tokens. split; [done|].
  repeat constructor; simpl; by intros [=].
Qed.

Lemma main_bundle_has_word_count (r : FileAnalysisResult) :
  bundle_complete main_analyzers r → ∃ n, has_word_count r n.
Proof.
  intros [content Hr]. exists (len (Fields content)), [].
  eexists. split; [exact Hr|].
  repeat constructor; simpl; by intros [=].
Qed.

(** C4.  The filter stage forwards a bundle exactly when its WordCount
    result is at least 2, keeping the order in which the bundles arrive;
    bundles with the counts 1, 2 and 5 leave as the bundles with the counts
    2 and 5; every bundle that reaches the stage in the pipeline of [main]
    has such a WordCount result. *)
Theorem filter_stage_forwards_word_count_ge_2
    (results : list FileAnalysisResult) (counts : list Z) :
  Forall2 has_word_count results counts →
  filter_stage results = Some (with_count_ge_2 results counts)
  ∧ (∀ r n, has_word_count r n →
            filter_stage [r] = Some (if 2 <=? n then [r] else []))
  ∧ (∀ r1 r2 r3,
       has_word_count r1 1 → has_word_count r2 2 → has_word_count r3 5 →
       filter_stage [r1; r2; r3] = Some [r2; r3])
  ∧ (∀ files workers sched s,
       main_run sched (main_start files workers) = Some s →
       Forall (λ r, ∃ n, has_word_count r n) (received s)).
Proof.
  intros Hall.
  assert (∀ rs ns, Forall2 has_word_count rs ns →
                   filter_stage rs = Some (with_count_ge_2 rs ns)) as Hgen.
  { clear. induction 1 as [|r n rs ns Hr _ IH]; simpl; [done|].
    rewrite (filter_show_word_count _ _ Hr), IH. by destruct (2 <=? n). }
  split; [by apply Hgen|]. split; [|split].
  - intros r n Hr. rewrite (Hgen [r] [n]) by (by repeat constructor).
    simpl. by destruct (2 <=? n).
  - intros r1 r2 r3 H1 H2 H3.
    by rewrite (Hgen [r1; r2; r3] [1; 2; 5]) by (by repeat constructor).
  - intros files workers sched s Hrun.
    destruct (main_inv_run _ _ _ (main_inv_start files workers) Hrun)
      as [Hrecv _].
    eapply Forall_impl; [exact Hrecv|]. apply main_bundle_has_word_count.
Qed.

(** ** The collecting loop and the report *)

Lemma merge_in_order_lookup (range : list (list Z * Z))
    (globalMap : gmap (list Z) Z) (w : list Z) :
  NoDup range.*1 →
  merge_in_order globalMap range !! w =
  match (list_to_map range : gmap (list Z) Z) !! w with
  | Some count => Some (int_add (default 0 (globalMap !! w)) count)
  | None => globalMap !! w
  end.
Proof.
  unfold merge_in_order. revert globalMap.
  induction range as [|[k c] range IH]; intros globalMap Hnd.
  - done.
  - rewrite fmap_cons, NoDup_cons in Hnd. destruct Hnd as [Hk Hnd].
    cbn [foldl]. rewrite IH by done. rewrite list_to_map_cons.
    unfold add_count. cbn [fst snd].
    destruct (decide (k = w)) as [->|Hne].
    + rewrite lookup_insert_eq.
      rewrite (not_elem_of_list_to_map_1 _ _ Hk).
      by rewrite lookup_insert_eq.
    + rewrite !lookup_insert_ne by done. done.
Qed.

(** The merge does not depend on the order in which [range] visits the
    keys of [freq]. *)
Lemma merge_any_order (globalMap freq : gmap (list Z) Z)
    (range : list (list Z * Z)) (w : list Z) :
  range ≡ₚ map_to_list freq →
  merge_in_order globalMap range !! w =
  match freq !! w with
  | Some count => Some (int_add (default 0 (globalMap !! w)) count)
  | None => globalMap !! w
  end.
Proof.
  intros Hperm.
  assert (NoDup range.*1) as Hnd
    by (rewrite Hperm; apply NoDup_fst_map_to_list).
  rewrite merge_in_order_lookup by done.
  rewrite (list_to_map_proper _ _ Hnd Hperm), list_to_map_to_list. done.
Qed.

Lemma words_of_range (range : list (list Z * Z)) :
  foldl (λ words wc, words ++ [mkWordCount wc.1 wc.2]) [] range
  = (λ wc, mkWordCount wc.1 wc.2) <$> range.
Proof.
  enough (∀ acc,
    foldl (λ words wc, words ++ [mkWordCount wc.1 wc.2]) acc range
    = acc ++ ((λ wc, mkWordCount wc.1 wc.2) <$> range)) as H by apply (H []).
  induction range as [|x range IH]; intros acc; simpl.
  - by rewrite app_nil_r.
  - rewrite IH, <- app_assoc. done.
Qed.

Lemma StronglySorted_weaken {A} (R1 R2 : A → A → Prop) (l : list A) :
  (∀ a b, R1 a b → R2 a b) → StronglySorted R1 l → StronglySorted R2 l.
Proof.
  intros HR. induction 1 as [|a l _ IH Hall]; constructor; [done|].
  eapply Forall_impl; [exact Hall|]. apply HR.
Qed.

Lemma top_words_spec (globalMap : gmap (list Z) Z)
    (range : list (list Z * Z)) (topWords : Z) :
  sort_Slice_contract → range ≡ₚ map_to_list globalMap → 0 < topWords →
  ∃ words,
    words ≡ₚ (λ wc, mkWordCount wc.1 wc.2) <$> map_to_list globalMap
    ∧ StronglySorted by_descending_count words
    ∧ top_words range topWords
      = take (Z.to_nat (Z.min topWords (Z.of_nat (size globalMap)))) words.
Proof.
  intros Hsort Hperm Hpos. unfold top_words.
  rewrite (proj2 (Z.ltb_lt 0 topWords)) by done.
  rewrite words_of_range.
  set (words0 := (λ wc, mkWordCount wc.1 wc.2) <$> range).
  destruct (Hsort words0) as [Hp Hs].
  exists (sort_Slice count_greater words0). split; [|split].
  - rewrite Hp. unfold words0. by rewrite Hperm.
  - eapply StronglySorted_weaken; [|exact Hs]. clear.
    intros a b. unfold no_inversion, count_greater, by_descending_count.
    intros H%Z.ltb_ge. done.
  - f_equal. f_equal.
    assert (len (sort_Slice count_greater words0)
            = Z.of_nat (size globalMap)) as ->.
    { unfold len. rewrite Hp. unfold words0.
      by rewrite length_fmap, Hperm, length_map_to_list. }
    destruct (Z.ltb_spec (Z.of_nat (size globalMap)) topWords); lia.
Qed.

(** C5.  Whatever the order in which [range] visits a bundle's frequency
    map, the collecting loop leaves in the global map, for every word of the
    bundle, the old count (0 when absent) plus the bundle's count, and
    leaves the other words alone; when [-top-words N] is given with
    [N > 0], the report is the first [min(N, distinct words)] entries of a
    rearrangement of the global map's entries in which counts never
    increase, and there is no report otherwise.  Over the maps
    {"a":1,"b":2} and {"a":3} the global map is {"a":4,"b":2} and the top-1
    report is [("a",4)]. *)
Theorem collect_merges_and_reports_top_words :
  sort_Slice_contract →
  (∀ globalMap freq range w,
     range ≡ₚ map_to_list freq →
     merge_in_order globalMap range !! w =
     match freq !! w with
     | Some count => Some (int_add (default 0 (globalMap !! w)) count)
     | None => globalMap !! w
     end)
  ∧ (∀ t freq,
       collect_result t {| NameAnalyzer := runes "most_frequent_words";
                           Data := AnyFreq freq |}
       = Some (mkTotals (totalWords t) (totalLines t)
                        (merge_freq (globalMap t) freq)))
  ∧ (∀ globalMap range topWords,
       range ≡ₚ map_to_list globalMap → 0 < topWords →
       ∃ words,
         words ≡ₚ (λ wc, mkWordCount wc.1 wc.2) <$> map_to_list globalMap
         ∧ StronglySorted by_descending_count words
         ∧ top_words range topWords
           = take (Z.to_nat (Z.min topWords (Z.of_nat (size globalMap))))
                  words)
  ∧ (∀ range topWords, topWords ≤ 0 → top_words range topWords = [])
  ∧ (∀ name1 size1 name2 size2 range,
       collect [freq_bundle name1 size1 {[ runes "a" := 1; runes "b" := 2 ]};
                freq_bundle name2 size2 {[ runes "a" := 3 ]}]
       = Some (mkTotals 0 0 {[ runes "a" := 4; runes "b" := 2 ]})
       ∧ (range ≡ₚ map_to_list
                     ({[ runes "a" := 4; runes "b" := 2 ]} : gmap (list Z) Z) →
          top_words range 1 = [mkWordCount (runes "a") 4])).
Proof.
  intros Hsort. split; [|split; [|split; [|split]]].
  - intros globalMap freq range w. apply merge_any_order.
  - done.
  - intros globalMap range topWords. by apply top_words_spec.
  - intros range topWords Hle. unfold top_words.
    by rewrite (proj2 (Z.ltb_ge 0 topWords)).
  - intros name1 size1 name2 size2 range. split; [by vm_compute|].
    intros Hperm.
    destruct (top_words_spec _ _ 1 Hsort Hperm ltac:(done))
      as (words & Hwords & Hsorted & ->).
    vm_compute in Hwords.
    apply Permutation_sym, Permutation_length_2_inv in Hwords as [->| ->];
      [|by vm_compute].
    apply StronglySorted_cons in Hsorted as [Hhd _].
    apply Forall_cons in Hhd as [Hhd _].
    unfold by_descending_count in Hhd. simpl in Hhd. lia.
Qed.

(** ** More on the collecting loop *)

Lemma int_wrap_add_l (x y : Z) : int_wrap (int_wrap x + y) = int_wrap (x + y).
Proof.
  unfold int_wrap.
  replace ((x + 2 ^ 63) mod 2 ^ 64 - 2 ^ 63 + y + 2 ^ 63)
    with ((x + 2 ^ 63) mod 2 ^ 64 + y) by lia.
  rewrite Zplus_mod_idemp_l. f_equal. f_equal. lia.
Qed.

Lemma int_wrap_small (z : Z) : - 2 ^ 63 ≤ z ≤ int_max → int_wrap z = z.
Proof.
  unfold int_wrap, int_max. intros H. rewrite Z.mod_small by lia. lia.
Qed.

Lemma int_add_comm (a b : Z) : int_add a b = int_add b a.
Proof. unfold int_add. by rewrite Z.add_comm. Qed.

Lemma int_add_wrap_l (a b : Z) : int_add (int_wrap a) b = int_wrap (a + b).
Proof. unfold int_add. apply int_wrap_add_l. Qed.

Lemma int_add_swap (a b c : Z) :
  int_add (int_add a b) c = int_add (int_add a c) b.
Proof.
  unfold int_add. rewrite !int_wrap_add_l. f_equal. lia.
Qed.

Lemma merge_freq_lookup (globalMap freq : gmap (list Z) Z) (w : list Z) :
  merge_freq globalMap freq !! w =
  match freq !! w with
  | Some count => Some (int_add (default 0 (globalMap !! w)) count)
  | None => globalMap !! w
  end.
Proof. unfold merge_freq. by apply merge_any_order. Qed.

Lemma merge_freq_swap (globalMap freq1 freq2 : gmap (list Z) Z) :
  merge_freq (merge_freq globalMap freq1) freq2
  = merge_freq (merge_freq globalMap freq2) freq1.
Proof.
  apply map_eq. intros w. rewrite !merge_freq_lookup.
  destruct (freq1 !! w) as [c1|], (freq2 !! w) as [c2|]; simpl; try done.
  by rewrite int_add_swap.
Qed.

Lemma collect_result_swap (t : totals) (x y : AnalysisResult) :
  collect_result t x ≫= (λ t', collect_result t' y)
  = collect_result t y ≫= (λ t', collect_result t' x).
Proof.
  unfold collect_result.
  repeat case_bool_decide;
    destruct (Data x) as [|n|freq], (Data y) as [|n'|freq'];
    simpl; repeat case_bool_decide; simpl; try congruence;
    f_equal; f_equal;
    auto using int_add_swap, merge_freq_swap.
Qed.

Lemma foldl_option_app {A B} (f : A → B → option A) (a : A) (l1 l2 : list B) :
  foldl_option f a (l1 ++ l2)
  = foldl_option f a l1 ≫= (λ a', foldl_option f a' l2).
Proof.
  revert a. induction l1 as [|x l1 IH]; intros a; simpl; [done|].
  destruct (f a x); simpl; [apply IH | done].
Qed.

Lemma foldl_option_Permutation {A B} (f : A → B → option A) (l l' : list B) :
  (∀ a x y, f a x ≫= (λ a', f a' y) = f a y ≫= (λ a', f a' x)) →
  l ≡ₚ l' → ∀ a, foldl_option f a l = foldl_option f a l'.
Proof.
  intros Hswap. induction 1 as [|x l l' _ IH|x y l|l l' l'' _ IH1 _ IH2];
    intros a; simpl.
  - done.
  - destruct (f a x); [apply IH | done].
  - pose proof (Hswap a y x) as H.
    destruct (f a y) as [a1|], (f a x) as [a2|]; simpl in H.
    + destruct (f a1 x), (f a2 y); by simplify_eq.
    + by destruct (f a1 x).
    + by destruct (f a2 y).
    + done.
  - by rewrite IH1.
Qed.

Lemma collect_flatten (filteredResults : list FileAnalysisResult) (t : totals) :
  foldl_option (λ t result, foldl_option collect_result t (Results result))
               t filteredResults
  = foldl_option collect_result t (concat (Results <$> filteredResults)).
Proof.
  revert t. induction filteredResults as [|r rs IH]; intros t; simpl; [done|].
  rewrite foldl_option_app.
  destruct (foldl_option collect_result t (Results r)); simpl; [apply IH|done].
Qed.

Lemma concat_fmap_Permutation {A B} (f : A → list B) (l l' : list A) :
  l ≡ₚ l' → concat (f <$> l) ≡ₚ concat (f <$> l').
Proof.
  induction 1 as [|x l l' _ IH|x y l|l l' l'' _ IH1 _ IH2]; simpl.
  - done.
  - by rewrite IH.
  - solve_Permutation.
  - by rewrite IH1.
Qed.

(** The totals do not depend on the order in which the bundles arrive:
    bundles that arrive in another order are collected into the same
    totals and the same global map, and panic or not alike. *)
Theorem collect_any_arrival_order
    (filteredResults filteredResults' : list FileAnalysisResult) :
  filteredResults ≡ₚ filteredResults' →
  collect filteredResults = collect filteredResults'.
Proof.
  intros Hperm. unfold collect. rewrite !collect_flatten.
  apply foldl_option_Permutation; [apply collect_result_swap|].
  by apply concat_fmap_Permutation.
Qed.

Lemma occurrences_app (w : list Z) (ws1 ws2 : list (list Z)) :
  occurrences w (ws1 ++ ws2) = occurrences w ws1 + occurrences w ws2.
Proof. unfold occurrences, len. rewrite filter_app, length_app. lia. Qed.

Lemma wrapped_entry_default (w : list Z) (ws : list (list Z)) :
  default 0 (wrapped_entry w ws) = int_wrap (occurrences w ws).
Proof.
  unfold wrapped_entry. destruct (Z.eqb_spec (occurrences w ws) 0) as [->|];
    done.
Qed.

Lemma foldl_incr_wrapped (l pre : list (list Z)) (freq : gmap (list Z) Z) :
  (∀ w, freq !! w = wrapped_entry w pre) →
  ∀ w, foldl (λ freq word, incr freq (ToLower word)) freq l !! w
       = wrapped_entry w (pre ++ (ToLower <$> l)).
Proof.
  revert pre freq. induction l as [|x l IH]; intros pre freq Hpre w.
  - simpl. by rewrite app_nil_r.
  - rewrite fmap_cons, cons_middle, app_assoc. simpl. apply IH.
    clear w. intros w. unfold incr.
    pose proof (occurrences_bounds w pre) as Hb.
    destruct (decide (ToLower x = w)) as [<-|Hne].
    + rewrite lookup_insert_eq, Hpre, wrapped_entry_default, int_add_wrap_l.
      unfold wrapped_entry. rewrite occurrences_snoc, decide_True by done.
      destruct (Z.eqb_spec (occurrences (ToLower x) pre + 1) 0); [lia|done].
    + rewrite lookup_insert_ne, Hpre by done.
      unfold wrapped_entry. rewrite occurrences_snoc, decide_False by done.
      by rewrite Z.add_0_r.
Qed.

Lemma merge_freq_wrapped (globalMap freq : gmap (list Z) Z)
    (seen new : list (list Z)) :
  (∀ w, globalMap !! w = wrapped_entry w seen) →
  (∀ w, freq !! w = wrapped_entry w new) →
  ∀ w, merge_freq globalMap freq !! w = wrapped_entry w (seen ++ new).
Proof.
  intros Hg Hf w. rewrite merge_freq_lookup, Hf, Hg.
  pose proof (occurrences_bounds w seen) as Hs.
  pose proof (occurrences_bounds w new) as Hn.
  rewrite wrapped_entry_default. unfold wrapped_entry at 1 3.
  rewrite occurrences_app.
  destruct (Z.eqb_spec (occurrences w new) 0) as [->|Hne].
  - by rewrite Z.add_0_r.
  - destruct (Z.eqb_spec (occurrences w seen + occurrences w new) 0); [lia|].
    f_equal. unfold int_add.
    rewrite int_wrap_add_l, Z.add_comm, int_wrap_add_l. f_equal. lia.
Qed.

(** One bundle of the pipeline of [main] through the collecting loop. *)
Lemma collect_main_bundle (t : totals) (content : list Z) :
  foldl_option collect_result t (analyze_all main_analyzers content)
  = Some (mkTotals
            (int_add (totalWords t) (len (Fields content)))
            (int_add (totalLines t) (int_add (Count_newline content) 1))
            (merge_freq (globalMap t)
               (foldl (λ freq word, incr freq (ToLower word)) ∅
                      (Fields content)))).
Proof. done. Qed.

Lemma collect_main_bundles (bundles : list FileAnalysisResult)
    (contents : list (list Z)) :
  Forall2 (λ b c, Results b = analyze_all main_analyzers c) bundles contents →
  ∀ t W L seen,
    totalWords t = int_wrap W → totalLines t = int_wrap L →
    (∀ w, globalMap t !! w = wrapped_entry w seen) →
    ∃ t',
      foldl_option (λ t result, foldl_option collect_result t (Results result))
                   t bundles = Some t'
      ∧ totalWords t' = int_wrap (W + len (concat (tokens <$> contents)))
      ∧ totalLines t'
        = int_wrap (L + sum_Z ((λ c, Count_newline c + 1) <$> contents))
      ∧ ∀ w, globalMap t' !! w
             = wrapped_entry w
                 (seen ++ (ToLower <$> concat (tokens <$> contents))).
Proof.
  induction 1 as [|b c bundles contents Hb _ IH]; intros t W L seen HW HL Hg.
  - exists t. simpl. rewrite !Z.add_0_r, app_nil_r. done.
  - cbn [foldl_option]. rewrite Hb, collect_main_bundle.
    match goal with
    | |- context [foldl_option _ ?t0 bundles] =>
        destruct (IH t0 (W + len (Fields c)) (L + (Count_newline c + 1))
                     (seen ++ (ToLower <$> Fields c)))
          as (t' & Ht' & HW' & HL' & Hg')
    end.
    + cbn [totalWords]. rewrite HW. apply int_add_wrap_l.
    + cbn [totalLines]. rewrite HL. unfold int_add.
      rewrite int_wrap_add_l, Z.add_comm, int_wrap_add_l.
      f_equal. lia.
    + cbn [globalMap]. apply merge_freq_wrapped; [exact Hg|].
      intros w.
      apply (foldl_incr_wrapped (Fields c) [] ∅).
      intros w'. unfold wrapped_entry. by rewrite lookup_empty.
    + exists t'. split; [exact Ht'|]. rewrite HW', HL'.
      split; [|split].
      * f_equal. rewrite Fields_tokens, fmap_cons. cbn [concat]. unfold len.
        rewrite length_app. lia.
      * f_equal. rewrite fmap_cons. unfold sum_Z. cbn [foldr]. lia.
      * intros w. rewrite Hg'. f_equal. rewrite fmap_cons. cbn [concat].
        rewrite Fields_tokens, fmap_app, app_assoc. done.
Qed.

Lemma sum_Z_bounds (contents : list (list Z)) :
  0 ≤ len (concat (tokens <$> contents))
      ≤ sum_Z ((λ c, len c + 1) <$> contents)
  ∧ 0 ≤ sum_Z ((λ c, Count_newline c + 1) <$> contents)
        ≤ sum_Z ((λ c, len c + 1) <$> contents).
Proof.
  induction contents as [|c contents IH]; [by unfold len, sum_Z|].
  rewrite !fmap_cons. cbn [concat]. unfold sum_Z in *. cbn [foldr].
  pose proof (tokens_length c). pose proof (Count_newline_bounds c).
  unfold len in *. rewrite length_app. lia.
Qed.

(** The totals of a corpus.  For bundles of the pipeline of [main], in the
    order collected, and as long as the corpus has fewer than 2^63 runes
    and files together: the collecting loop does not panic, [totalWords] is
    the number of tokens of all contents, [totalLines] the sum of their line
    counts, and the global map sends each lower-cased token to the number of
    its occurrences in the whole corpus and holds no other key. *)
Theorem collect_totals_of_corpus
    (bundles : list FileAnalysisResult) (contents : list (list Z)) :
  Forall2 (λ b c, Results b = analyze_all main_analyzers c) bundles contents →
  sum_Z ((λ c, len c + 1) <$> contents) ≤ int_max →
  ∃ t,
    collect bundles = Some t
    ∧ totalWords t = len (concat (tokens <$> contents))
    ∧ totalLines t = sum_Z ((λ c, Count_newline c + 1) <$> contents)
    ∧ ∀ w, globalMap t !! w
           = occurrence_entry w (ToLower <$> concat (tokens <$> contents)).
Proof.
  intros Hall Hsize.
  destruct (collect_main_bundles _ _ Hall (mkTotals 0 0 ∅) 0 0 [])
    as (t & Ht & HW & HL & Hg); try done.
  destruct (sum_Z_bounds contents) as [Hw Hl].
  exists t. split; [exact Ht|].
  rewrite HW, HL, !Z.add_0_l.
  rewrite !int_wrap_small by (unfold int_max in *; lia).
  split; [done|]. split; [done|].
  intros w. rewrite Hg, app_nil_l. unfold wrapped_entry, occurrence_entry.
  pose proof (occurrences_bounds w (ToLower <$> concat (tokens <$> contents)))
    as Hb.
  assert (len (ToLower <$> concat (tokens <$> contents))
          = len (concat (tokens <$> contents))) as Hlen
    by (unfold len; by rewrite length_fmap).
  by rewrite int_wrap_small by (unfold int_max in *; lia).
Qed.

(** ** More on the filter stage *)

Lemma filter_stage_sublist (results filteredResults : list FileAnalysisResult) :
  filter_stage results = Some filteredResults →
  filteredResults `sublist_of` results.
Proof.
  revert filteredResults.
  induction results as [|r results IH]; intros fs H; simpl in H.
  - by simplify_eq.
  - destruct (filter_show (Results r)) as [show|]; [|done].
    destruct (filter_stage results) as [fs'|]; [|done].
    simplify_eq. destruct show.
    + by apply sublist_skip, IH.
    + by apply sublist_cons, IH.
Qed.

Lemma filter_show_below_2 (n : Z) (rest : list AnalysisResult) :
  n < 2 →
  filter_show ({| NameAnalyzer := runes "word_count"; Data := AnyInt n |}
               :: rest) = Some false.
Proof.
  intros Hn. cbn [filter_show NameAnalyzer Data assert_int].
  rewrite bool_decide_true by done.
  by rewrite (proj2 (Z.ltb_lt n 2)).
Qed.

Lemma filter_stage_panics (before after : list FileAnalysisResult)
    (r : FileAnalysisResult) :
  filter_show (Results r) = None →
  filter_stage (before ++ r :: after) = None.
Proof.
  intros Hr. induction before as [|b before IH]; simpl.
  - by rewrite Hr.
  - rewrite IH. by destruct (filter_show (Results b)).
Qed.

(** What the filter stage does with bundles of any shape: what it forwards
    is a subsequence of what it receives; a bundle without a "word_count"
    result is forwarded; a "word_count" result below 2 drops the bundle
    without looking at the results after it; and a "word_count" result that
    does not hold an [int], met before any count below 2, makes the stage
    panic. *)
Theorem filter_stage_on_any_bundles :
  (∀ results filteredResults,
     filter_stage results = Some filteredResults →
     filteredResults `sublist_of` results)
  ∧ (∀ results,
       Forall (λ r, Forall (λ x, NameAnalyzer x ≠ runes "word_count")
                           (Results r)) results →
       filter_stage results = Some results)
  ∧ (∀ name size n rest,
       n < 2 →
       filter_stage
         [ {| FileName := name; Size := size;
              Results := {| NameAnalyzer := runes "word_count";
                            Data := AnyInt n |} :: rest |} ] = Some [])
  ∧ (∀ before after name size earlier d rest,
       Forall (λ x, NameAnalyzer x = runes "word_count" →
                    ∃ n, Data x = AnyInt n ∧ 2 ≤ n) earlier →
       assert_int d = None →
       filter_stage
         (before
          ++ {| FileName := name; Size := size;
                Results := earlier
                           ++ {| NameAnalyzer := runes "word_count";
                                 Data := d |} :: rest |}
          :: after) = None).
Proof.
  split; [apply filter_stage_sublist|]. split; [|split].
  - induction 1 as [|r results Hr _ IH]; simpl; [done|].
    by rewrite (filter_show_other _ Hr), IH.
  - intros name size n rest Hn. cbn [filter_stage Results].
    by rewrite (filter_show_below_2 n rest Hn).
  - intros before after name size earlier d rest Hearlier Hd.
    apply filter_stage_panics. cbn [Results].
    induction Hearlier as [|x earlier Hx _ IH];
      cbn [app filter_show NameAnalyzer Data].
    + rewrite bool_decide_true by done. by rewrite Hd.
    + case_bool_decide as Hname; [|exact IH].
      destruct (Hx Hname) as (n & -> & Hn). cbn [assert_int].
      by rewrite (proj2 (Z.ltb_ge n 2)).
Qed.

(** ** More on the report *)

(** What the report of [-top-words N] holds, for [N > 0]: at most [N]
    entries, in descending order of count; each is a word of the global map
    with its count, no word twice; and no word left out of the report has a
    larger count than a word in it. *)
Theorem top_words_are_the_most_frequent
    (globalMap : gmap (list Z) Z) (range : list (list Z * Z)) (topWords : Z) :
  sort_Slice_contract → range ≡ₚ map_to_list globalMap → 0 < topWords →
  len (top_words range topWords) ≤ topWords
  ∧ StronglySorted by_descending_count (top_words range topWords)
  ∧ (∀ x, x ∈ top_words range topWords →
          globalMap !! Word x = Some (Count x))
  ∧ NoDup (Word <$> top_words range topWords)
  ∧ (∀ x w c,
       x ∈ top_words range topWords →
       globalMap !! w = Some c →
       mkWordCount w c ∉ top_words range topWords →
       c ≤ Count x).
Proof.
  intros Hsort Hperm Hpos.
  destruct (top_words_spec globalMap range topWords Hsort Hperm Hpos)
    as (words & Hwords & Hsorted & ->).
  set (n := Z.to_nat (topWords `min` Z.of_nat (size globalMap))).
  assert (∀ x, x ∈ words ↔ globalMap !! Word x = Some (Count x)) as Hin.
  { intros [w c]. rewrite Hwords, list_elem_of_fmap. simpl. split.
    - intros ([w' c'] & [= -> ->] & Hin). by apply elem_of_map_to_list in Hin.
    - intros Hlook. exists (w, c). split; [done|].
      by apply elem_of_map_to_list. }
  assert (NoDup (Word <$> words)) as Hnodup.
  { rewrite Hwords, <- list_fmap_compose.
    apply (NoDup_fst_map_to_list globalMap). }
  rewrite <- (take_drop n words) in Hsorted.
  split; [|split; [|split; [|split]]].
  - unfold len. rewrite length_take. lia.
  - by apply StronglySorted_app_1_l in Hsorted.
  - intros x Hx. apply Hin. eapply elem_of_sublist; [exact Hx|].
    apply sublist_take.
  - rewrite fmap_take. eapply sublist_NoDup; [exact Hnodup|].
    apply sublist_take.
  - intros x w c Hx Hlook Hout.
    assert (mkWordCount w c ∈ words) as Hy by (by apply Hin).
    rewrite <- (take_drop n words), elem_of_app in Hy.
    destruct Hy as [Hy|Hy]; [done|].
    apply (StronglySorted_app_1_elem_of _ _ _ x (mkWordCount w c) Hsorted Hx Hy).
Qed.

(** ** More on the worker pool of [main] *)

Lemma omap_length_le {A B} (f : A → option B) (l : list A) :
  (length (omap f l) ≤ length l)%nat.
Proof.
  induction l as [|x l IH]; [done|].
  change (omap f (x :: l))
    with (match f x with Some y => y :: omap f l | None => omap f l end).
  destruct (f x); simpl; lia.
Qed.

Lemma forallb_is_exit_lookup (ws : list mworker) i w :
  forallb is_exit ws = true → ws !! i = Some w → w = MExit.
Proof.
  intros Hall Hi. rewrite forallb_forall in Hall.
  apply list_elem_of_lookup_2, list_elem_of_In in Hi.
  specialize (Hall _ Hi). by destruct w.
Qed.

Lemma main_pool_inv_start files workers :
  main_pool_inv files (Z.to_nat workers) (main_start files workers).
Proof.
  split; simpl; try done.
  - assert (concat (mowed <$> replicate (Z.to_nat workers) MSelect) = [])
      as -> by (induction (Z.to_nat workers); simpl; auto).
    done.
  - intros _ i [? _]%lookup_replicate. done.
  - apply length_replicate.
Qed.

Lemma main_pool_inv_step files n a s s' :
  main_pool_inv files n s → main_step a s = Some s' →
  main_pool_inv files n s'.
Proof.
  intros [Hacc Hbuf Hord Hres Hexit Hclosed Hlen] Hstep.
  destruct a as [ | | | |i|i|i|i order|i| ]; simpl in Hstep.
  - (* Cancel *)
    destruct (ctx_done s) eqn:Hc; simplify_eq. by split.
  - (* Feed *)
    destruct (todo s) as [|file rest] eqn:Htodo; [done|].
    destruct (filePaths_closed s) eqn:Hfc; [done|].
    destruct (Z.ltb_spec (len (filePaths s)) 100); simplify_eq/=.
    split; simpl; try done.
    + rewrite omap_app. rewrite <- Hacc. simpl.
      destruct (file_bundle main_analyzers file); solve_Permutation.
    + unfold len in *. rewrite length_app. simpl. lia.
    + by rewrite <- app_assoc.
    + intros Hc i Hi. by destruct (Hexit Hc i Hi).
  - (* FeedCancelled *)
    destruct (todo s) as [|file rest] eqn:Htodo; [done|].
    destruct (ctx_done s) eqn:Hc; [|done].
    destruct (filePaths_closed s) eqn:Hfc; simplify_eq/=.
    by split.
  - (* FeedEnd *)
    destruct (todo s) as [|file rest] eqn:Htodo; [|done].
    destruct (filePaths_closed s) eqn:Hfc; simplify_eq/=.
    split; simpl; try done.
    intros Hc i Hi. by destruct (Hexit Hc i Hi).
  - (* Pull *)
    destruct (mworkers s !! i) as [[]|] eqn:Hi; try done.
    destruct (filePaths s) as [|path rest] eqn:Hfp; simplify_eq.
    destruct (concat_fmap_insert mowed _ _ _ (MGot path) Hi)
      as (X & Y & HX & HY).
    split; simpl.
    + rewrite HY. rewrite HX in Hacc. simpl in Hacc |- *. rewrite <- Hacc.
      destruct (file_bundle main_analyzers path); solve_Permutation.
    + unfold len in *. simpl in Hbuf. lia.
    + eapply suffix_cons_l. exact Hord.
    + intros Hr. specialize (Hres Hr).
      by pose proof (forallb_is_exit_lookup _ _ _ Hres Hi).
    + intros Hc j Hj.
      apply list_lookup_insert_Some in Hj as [(? & ? & _)|[_ Hj]]; [done|].
      by destruct (Hexit Hc j Hj).
    + done.
    + by rewrite length_insert.
  - (* QuitClosed *)
    destruct (mworkers s !! i) as [[]|] eqn:Hi; try done.
    destruct (filePaths s) as [|path rest] eqn:Hfp; [|done].
    destruct (filePaths_closed s) eqn:Hfc; simplify_eq.
    destruct (concat_fmap_insert mowed _ _ _ MExit Hi) as (X & Y & HX & HY).
    split; simpl.
    + rewrite HY, Hfp. rewrite HX in Hacc. exact Hacc.
    + by rewrite Hfp.
    + by rewrite Hfp.
    + intros Hr. specialize (Hres Hr).
      by pose proof (forallb_is_exit_lookup _ _ _ Hres Hi).
    + intros _ j _. by rewrite Hfp, Hfc.
    + by rewrite Hfc.
    + by rewrite length_insert.
  - (* QuitCancelled *)
    destruct (mworkers s !! i) as [[]|] eqn:Hi; try done.
    destruct (ctx_done s) eqn:Hc; simplify_eq.
    destruct (concat_fmap_insert mowed _ _ _ MExit Hi) as (X & Y & HX & HY).
    split; simpl.
    + rewrite HY. rewrite HX in Hacc. exact Hacc.
    + done.
    + done.
    + intros Hr. specialize (Hres Hr).
      by pose proof (forallb_is_exit_lookup _ _ _ Hres Hi).
    + by rewrite Hc.
    + by rewrite Hc.
    + by rewrite length_insert.
  - (* Analyse *)
    destruct (mworkers s !! i) as [[|path| |]|] eqn:Hi; try done.
    assert (∃ w', s' = set_mworker s i w' ∧ is_exit w' = false
                  ∧ mowed w' = mowed (MGot path))
      as (w' & -> & Hw' & Howed).
    { simpl. unfold file_bundle.
      destruct (readFileContent path) as [[content size] [e|]].
      - exists MSelect. by simplify_eq.
      - case_bool_decide as Ho; [|done]. simplify_eq.
        eexists. split; [done|]. split; [done|].
        simpl. by rewrite analyze_slots_all. }
    destruct (concat_fmap_insert mowed _ _ _ w' Hi) as (X & Y & HX & HY).
    split; simpl.
    + rewrite HY, Howed, <- HX. done.
    + done.
    + done.
    + intros Hr. specialize (Hres Hr).
      by pose proof (forallb_is_exit_lookup _ _ _ Hres Hi).
    + intros Hc j Hj.
      apply list_lookup_insert_Some in Hj as [(_ & -> & _)|[_ Hj]]; [done|].
      by apply (Hexit Hc j).
    + done.
    + by rewrite length_insert.
  - (* Deliver *)
    destruct (mworkers s !! i) as [[| |r|]|] eqn:Hi; simplify_eq.
    destruct (concat_fmap_insert mowed _ _ _ MSelect Hi) as (X & Y & HX & HY).
    split; simpl.
    + rewrite HY. rewrite HX in Hacc. simpl in Hacc |- *. rewrite <- Hacc.
      solve_Permutation.
    + done.
    + done.
    + intros Hr. specialize (Hres Hr).
      by pose proof (forallb_is_exit_lookup _ _ _ Hres Hi).
    + intros Hc j Hj.
      apply list_lookup_insert_Some in Hj as [(? & ? & _)|[_ Hj]]; [done|].
      by apply (Hexit Hc j).
    + done.
    + by rewrite length_insert.
  - (* CloseRes *)
    destruct (forallb is_exit (mworkers s)) eqn:Hall; [|done].
    destruct (mresults_closed s) eqn:Hrc; simplify_eq/=.
    by split.
Qed.

Lemma main_pool_inv_run files n sched s s' :
  main_pool_inv files n s → main_run sched s = Some s' →
  main_pool_inv files n s'.
Proof.
  revert s. induction sched as [|a sched IH]; intros s Hinv Hrun;
    simpl in Hrun.
  - by simplify_eq.
  - destruct (main_step a s) as [s1|] eqn:Hstep; [|done].
    eauto using main_pool_inv_step.
Qed.

Lemma main_step_weight a s s' :
  main_step a s = Some s' → (main_weight s' < main_weight s)%nat.
Proof.
  intros Hstep. unfold main_weight.
  destruct a as [ | | | |i|i|i|i order|i| ]; simpl in Hstep.
  - destruct (ctx_done s) eqn:Hc; simplify_eq. simpl. lia.
  - destruct (todo s) as [|file rest] eqn:Htodo; [done|].
    destruct (filePaths_closed s) eqn:Hfc; [done|].
    destruct (Z.ltb_spec (len (filePaths s)) 100); simplify_eq/=.
    rewrite length_app. simpl. lia.
  - destruct (todo s) as [|file rest] eqn:Htodo; [done|].
    destruct (ctx_done s) eqn:Hc; [|done].
    destruct (filePaths_closed s) eqn:Hfc; simplify_eq/=. lia.
  - destruct (todo s) as [|file rest] eqn:Htodo; [|done].
    destruct (filePaths_closed s) eqn:Hfc; simplify_eq/=. lia.
  - destruct (mworkers s !! i) as [[]|] eqn:Hi; try done.
    destruct (filePaths s) as [|path rest] eqn:Hfp; simplify_eq. simpl.
    pose proof (sum_list_fmap_insert mworker_weight _ _ _ (MGot path) Hi) as Hsum.
    simpl in Hsum. lia.
  - destruct (mworkers s !! i) as [[]|] eqn:Hi; try done.
    destruct (filePaths s) as [|path rest] eqn:Hfp; [|done].
    destruct (filePaths_closed s) eqn:Hfc; simplify_eq. simpl.
    rewrite Hfp, Hfc.
    pose proof (sum_list_fmap_insert mworker_weight _ _ _ MExit Hi) as Hsum.
    simpl in Hsum |- *. lia.
  - destruct (mworkers s !! i) as [[]|] eqn:Hi; try done.
    destruct (ctx_done s) eqn:Hc; simplify_eq. simpl. rewrite Hc.
    pose proof (sum_list_fmap_insert mworker_weight _ _ _ MExit Hi) as Hsum.
    simpl in Hsum. lia.
  - destruct (mworkers s !! i) as [[|path| |]|] eqn:Hi; try done.
    destruct (readFileContent path) as [[content size] [e|]].
    + simplify_eq. simpl.
      pose proof (sum_list_fmap_insert mworker_weight _ _ _ MSelect Hi) as Hsum.
      simpl in Hsum. lia.
    + case_bool_decide; simplify_eq. simpl.
      match goal with
      | |- context [<[i:=?w]> (mworkers s)] =>
          pose proof (sum_list_fmap_insert mworker_weight _ _ _ w Hi) as Hsum
      end.
      simpl in Hsum. lia.
  - destruct (mworkers s !! i) as [[| |r|]|] eqn:Hi; simplify_eq. simpl.
    pose proof (sum_list_fmap_insert mworker_weight _ _ _ MSelect Hi) as Hsum.
    simpl in Hsum. lia.
  - destruct (forallb is_exit (mworkers s)) eqn:Hall; [|done].
    destruct (mresults_closed s) eqn:Hrc; simplify_eq/=. lia.
Qed.

Lemma main_run_weight sched s s' :
  main_run sched s = Some s' →
  (length sched + main_weight s' ≤ main_weight s)%nat.
Proof.
  revert s. induction sched as [|a sched IH]; intros s Hrun; simpl in Hrun.
  - simplify_eq. simpl. lia.
  - destruct (main_step a s) as [s1|] eqn:Hstep; [|done].
    apply main_step_weight in Hstep. apply IH in Hrun. simpl. lia.
Qed.

Lemma main_weight_start files workers :
  main_weight (main_start files workers)
  = (4 * length files + Z.to_nat workers + 3)%nat.
Proof.
  unfold main_weight, main_start. simpl.
  assert (sum_list (mworker_weight <$> replicate (Z.to_nat workers) MSelect)
          = Z.to_nat workers) as ->
    by (induction (Z.to_nat workers); simpl; auto).
  lia.
Qed.

Lemma mworkers_cases (ws : list mworker) :
  (∃ i path, ws !! i = Some (MGot path))
  ∨ (∃ i r, ws !! i = Some (MPush r))
  ∨ (∃ i, ws !! i = Some MSelect)
  ∨ forallb is_exit ws = true.
Proof.
  induction ws as [|w ws IH]; [by right; right; right|].
  destruct w as [|path|r|].
  - right; right; left. by exists 0%nat.
  - left. by exists 0%nat, path.
  - right; left. by exists 0%nat, r.
  - destruct IH as [(i & p & H)|[(i & r & H)|[(i & H)|H]]].
    + left. by exists (S i), p.
    + right; left. by exists (S i), r.
    + right; right; left. by exists (S i).
    + by right; right; right.
Qed.

(** The pool of [main] needs no interrupt to go on. *)
Lemma main_progress s :
  mresults_closed s = false →
  ∃ a s', a ≠ Cancel ∧ main_step a s = Some s'.
Proof.
  intros Hrc.
  destruct (mworkers_cases (mworkers s))
    as [(i & p & Hi)|[(i & r & Hi)|[(i & Hi)|Hall]]].
  - exists (Analyse i (seq 0 (length main_analyzers))).
    cbn [main_step]. rewrite Hi.
    destruct (readFileContent p) as [[content size] [e|]]; [by eauto|].
    rewrite bool_decide_true by (by unfold completion_order). by eauto.
  - exists (Deliver i). simpl. rewrite Hi. by eauto.
  - destruct (filePaths s) as [|path rest] eqn:Hfp.
    + destruct (filePaths_closed s) eqn:Hfc.
      * exists (QuitClosed i). simpl. rewrite Hi, Hfp, Hfc. by eauto.
      * destruct (todo s) as [|file files'] eqn:Htodo.
        -- exists FeedEnd. simpl. rewrite Htodo, Hfc. by eauto.
        -- exists Feed. simpl. rewrite Htodo, Hfc, Hfp. by eauto.
    + exists (Pull i). simpl. rewrite Hi, Hfp. by eauto.
  - exists CloseRes. simpl. rewrite Hall, Hrc. by eauto.
Qed.

(** The pool of [main] cannot hang and cannot run for ever, whatever the
    number of workers and whether the interrupt arrives or not: from every
    state it can reach, some goroutine other than the interrupt handler can
    take a step until [results] is closed, and no schedule is longer than
    [4 * len(files) + workers + 3] steps. *)
Theorem main_pool_terminates_without_deadlock
    (files : list (list Z)) (workers : Z) (sched : list maction) (s : mstate) :
  main_run sched (main_start files workers) = Some s →
  (length sched ≤ 4 * length files + Z.to_nat workers + 3)%nat
  ∧ (mresults_closed s = false →
     ∃ a s', a ≠ Cancel ∧ main_step a s = Some s')
  ∧ (mresults_closed s = true →
     ∀ a s', main_step a s = Some s' →
             received s' = received s ∧ mresults_closed s' = true).
Proof.
  intros Hrun. split; [|split].
  - apply main_run_weight in Hrun. rewrite main_weight_start in Hrun. lia.
  - apply main_progress.
  - intros Hrc a s' Hstep.
    pose proof (main_pool_inv_run _ _ _ _ _
                  (main_pool_inv_start files workers) Hrun) as [_ _ _ Hres].
    specialize (Hres Hrc).
    destruct a as [ | | | |i|i|i|i order|i| ]; simpl in Hstep;
      repeat case_match; simplify_eq; simpl; try done;
      match goal with
      | H : mworkers s !! _ = Some _ |- _ =>
          by pose proof (forallb_is_exit_lookup _ _ _ Hres H)
      end.
Qed.

(** Every file is analysed at most once by the pool of [main]: in every
    state it can reach, interrupted or not, the bundles delivered so far
    are, up to order, among the bundles of the files given, so there are
    never more of them than files; the buffer of [filePaths] never holds
    more than 100 paths; and paths are fed in the order of the files. *)
Theorem main_pool_delivers_each_file_at_most_once
    (files : list (list Z)) (workers : Z) (sched : list maction) (s : mstate) :
  main_run sched (main_start files workers) = Some s →
  received s ⊆+ omap (file_bundle main_analyzers) files
  ∧ (length (received s) ≤ length files)%nat
  ∧ len (filePaths s) ≤ 100
  ∧ (filePaths s ++ todo s) `suffix_of` files.
Proof.
  intros Hrun.
  pose proof (main_pool_inv_run _ _ _ _ _
                (main_pool_inv_start files workers) Hrun)
    as [Hacc Hbuf Hord _ _ _ _].
  assert (received s ⊆+ omap (file_bundle main_analyzers) files) as Hsub
    by (rewrite <- Hacc; by apply submseteq_inserts_r).
  split; [done|]. split; [|done].
  apply submseteq_length in Hsub.
  pose proof (omap_length_le (file_bundle main_analyzers) files). lia.
Qed.

(** Without an interrupt and with at least one worker, the pool of [main]
    has delivered, when [results] is closed, the bundle of every readable
    file exactly once: the bundles are those [AnalyzeSequential] returns for
    the same files, in some order. *)
Theorem main_pool_delivers_every_file_when_not_interrupted
    (files : list (list Z)) (workers : Z) (sched : list maction) (s : mstate) :
  1 ≤ workers →
  main_run sched (main_start files workers) = Some s →
  ctx_done s = false →
  mresults_closed s = true →
  received s ≡ₚ (AnalyzeSequential files main_analyzers).1.
Proof.
  intros Hw Hrun Hc Hrc.
  pose proof (main_pool_inv_run _ _ _ _ _
                (main_pool_inv_start files workers) Hrun)
    as [Hacc _ _ Hres Hexit Hclosed Hlen].
  specialize (Hres Hrc).
  assert (concat (mowed <$> mworkers s) = []) as Hnone.
  { clear -Hres. induction (mworkers s) as [|w ws IH]; simpl in *; [done|].
    apply andb_prop in Hres as [Hw Hws]. destruct w; try done.
    simpl. auto. }
  assert (mworkers s !! 0%nat = Some MExit) as H0.
  { destruct (mworkers s) as [|w ws]; [simpl in Hlen; lia|].
    by rewrite (forallb_is_exit_lookup (w :: ws) 0 w Hres). }
  destruct (Hexit Hc 0%nat H0) as [Hfp Hfc].
  rewrite Hnone, Hfp, (Hclosed Hc Hfc) in Hacc. simpl in Hacc.
  rewrite app_nil_r in Hacc.
  by rewrite AnalyzeSequential_omap.
Qed.

(** ** The stages of [main] together *)

Lemma filter_stage_counts (results : list FileAnalysisResult) (counts : list Z) :
  Forall2 has_word_count results counts →
  filter_stage results = Some (with_count_ge_2 results counts)
  ∧ Forall (λ r, ∃ n, has_word_count r n ∧ 2 ≤ n)
           (with_count_ge_2 results counts).
Proof.
  induction 1 as [|r n rs ns Hr _ [IH1 IH2]]; simpl; [done|].
  rewrite (filter_show_word_count _ _ Hr), IH1.
  destruct (Z.leb_spec 2 n); [|done].
  split; [done|]. constructor; [|done]. by exists n.
Qed.

Lemma complete_bundles_contents (results : list FileAnalysisResult) :
  Forall (bundle_complete main_analyzers) results →
  ∃ contents,
    Forall2 (λ b c, Results b = analyze_all main_analyzers c) results contents.
Proof.
  induction 1 as [|r rs [c Hc] _ [cs IH]]; [by exists []|].
  exists (c :: cs). by constructor.
Qed.

(** The type assertions of the filter stage and of the collecting loop
    never fail in the pipeline of [main]: whatever the pool has delivered,
    in any state it can reach, the filter stage forwards a subsequence of it
    without a panic, every forwarded bundle has a word count of at least 2,
    and the collecting loop turns the forwarded bundles into totals without
    a panic. *)
Theorem main_pipeline_never_panics
    (files : list (list Z)) (workers : Z) (sched : list maction) (s : mstate) :
  main_run sched (main_start files workers) = Some s →
  ∃ filteredResults t,
    filter_stage (received s) = Some filteredResults
    ∧ filteredResults `sublist_of` received s
    ∧ Forall (λ r, ∃ n, has_word_count r n ∧ 2 ≤ n) filteredResults
    ∧ collect filteredResults = Some t.
Proof.
  intros Hrun.
  destruct (main_inv_run _ _ _ (main_inv_start files workers) Hrun)
    as [Hrecv _].
  assert (∃ counts, Forall2 has_word_count (received s) counts)
    as [counts Hcounts].
  { clear -Hrecv. induction Hrecv as [|r rs Hr _ [ns IH]]; [by exists []|].
    destruct (main_bundle_has_word_count r Hr) as [n Hn].
    exists (n :: ns). by constructor. }
  destruct (filter_stage_counts _ _ Hcounts) as [Hfilter Hge].
  pose proof (filter_stage_sublist _ _ Hfilter) as Hsub.
  assert (Forall (bundle_complete main_analyzers)
                 (with_count_ge_2 (received s) counts)) as Hcomplete
    by (apply Forall_forall; intros r Hr;
        rewrite Forall_forall in Hrecv; apply Hrecv;
        by eapply elem_of_sublist).
  destruct (complete_bundles_contents _ Hcomplete) as [contents Hcontents].
  destruct (collect_main_bundles _ _ Hcontents (mkTotals 0 0 ∅) 0 0 [])
    as (t & Ht & _); try done.
  by exists (with_count_ge_2 (received s) counts), t.
Qed.

(** ** More on [analyze.go] *)

(** Batches compose: the result for two file lists one after the other is
    the result for the first followed by the result for the second; there
    are never more bundles than files; the file names of the bundles are, in
    order, among the base names of the files; and no file gives no bundle. *)
Theorem AnalyzeSequential_composes
    (files1 files2 : list (list Z)) (analyzers : list Analyzer) :
  (AnalyzeSequential (files1 ++ files2) analyzers).1
  = (AnalyzeSequential files1 analyzers).1
    ++ (AnalyzeSequential files2 analyzers).1
  ∧ (length (AnalyzeSequential files1 analyzers).1 ≤ length files1)%nat
  ∧ (FileName <$> (AnalyzeSequential files1 analyzers).1)
    `sublist_of` (filepath_Base <$> files1)
  ∧ AnalyzeSequential [] analyzers = ([], None).
Proof.
  rewrite !AnalyzeSequential_omap. simpl.
  split; [apply omap_app|]. split; [apply omap_length_le|]. split; [|done].
  induction files1 as [|path files IH]; [done|].
  change (omap (file_bundle analyzers) (path :: files))
    with (match file_bundle analyzers path with
          | Some y => y :: omap (file_bundle analyzers) files
          | None => omap (file_bundle analyzers) files
          end).
  rewrite fmap_cons.
  destruct (file_bundle analyzers path) as [r|] eqn:Hr.
  - rewrite fmap_cons.
    assert (FileName r = filepath_Base path) as ->.
    { unfold file_bundle in Hr.
      destruct (readFileContent path) as [[content size] [e|]];
        by simplify_eq. }
    by apply sublist_skip.
  - by apply sublist_cons.
Qed.

Lemma pool_run_nil_or_step analyzers sched s s' :
  pool_run analyzers sched s = Some s' →
  (∀ a, pool_step analyzers a s = None) → sched = [] ∧ s' = s.
Proof.
  intros Hrun Hstuck. destruct sched as [|a sched]; simpl in Hrun.
  - by simplify_eq.
  - by rewrite Hstuck in Hrun.
Qed.

(** [AnalyzeParallel] with no worker ([workers <= 0]): when there is a
    file, the feeder blocks on its first send and nothing can ever happen,
    so the call does not return; when there is no file, the call returns no
    bundle and a nil error. *)
Theorem AnalyzeParallel_without_workers
    (files : list (list Z)) (analyzers : list Analyzer) (workers : Z) :
  workers ≤ 0 →
  (files ≠ [] →
   (∀ a, pool_step analyzers a (AnalyzeParallel_start files workers) = None)
   ∧ ∀ ret, ¬ AnalyzeParallel files analyzers workers ret)
  ∧ (files = [] →
     AnalyzeParallel files analyzers workers ([], None)
     ∧ ∀ ret, AnalyzeParallel files analyzers workers ret → ret = ([], None)).
Proof.
  intros Hw. unfold AnalyzeParallel_start.
  replace (Z.to_nat workers) with 0%nat by lia. simpl. split.
  - intros Hfiles.
    assert (∀ a, pool_step analyzers a (mkPool files false [] false [] None)
                 = None) as Hstuck.
    { intros [i|i order|i| |i| |]; simpl; try done.
      - by destruct files.
      - by destruct files. }
    split; [exact Hstuck|].
    intros ret (sched & s & Hrun & Hret).
    unfold AnalyzeParallel_start in Hrun.
    replace (Z.to_nat workers) with 0%nat in Hrun by lia. simpl in Hrun.
    destruct (pool_run_nil_or_step _ _ _ _ Hrun Hstuck) as [_ ->]. done.
  - intros ->. split.
    + exists [CloseFeed; CloseResults; Return]. eexists.
      unfold AnalyzeParallel_start.
      replace (Z.to_nat workers) with 0%nat by lia. by simpl.
    + intros [results err] Hpar.
      destruct Hpar as (sched & s & Hrun & Hret).
      pose proof (pool_inv_run _ _ _ _ _ _
                    (pool_inv_start analyzers [] workers) Hrun) as Hinv.
      destruct (pool_inv_returned _ _ _ _ _ Hinv Hret) as [Hperm Herr].
      simpl in Hperm, Herr. apply Permutation_nil_r in Hperm. by subst.
Qed.

Lemma pool_step_out analyzers a s s' :
  pool_step analyzers a s = Some s' → out s `prefix_of` out s'.
Proof.
  intros Hstep.
  destruct a as [i|i order|i| |i| |]; simpl in Hstep;
    repeat case_match; simplify_eq; simpl; try done.
  by apply prefix_app_r.
Qed.

(** [results] is closed only when no send on it is pending or still to
    come, whatever the number of workers: in every state [AnalyzeParallel]
    can reach, a worker blocked in its send finds [results] open; once
    [results] is closed every worker has left its loop and the bundles
    received stay as they are; and a step never takes a received bundle
    away. *)
Theorem AnalyzeParallel_never_sends_after_close
    (files : list (list Z)) (analyzers : list Analyzer) (nworkers : Z)
    (sched : list action) (s : pool) :
  pool_run analyzers sched (AnalyzeParallel_start files nworkers) = Some s →
  (∀ i r, workers s !! i = Some (WSend r) → results_closed s = false)
  ∧ (results_closed s = true →
     feed s = [] ∧ Forall (λ w, w = WDone) (workers s)
     ∧ ∀ a s', pool_step analyzers a s = Some s' → out s' = out s)
  ∧ (∀ a s', pool_step analyzers a s = Some s' → out s `prefix_of` out s').
Proof.
  intros Hrun.
  pose proof (pool_inv_run _ _ _ _ _ _
                (pool_inv_start analyzers files nworkers) Hrun)
    as [_ _ Hclosed Hres _ _].
  assert (results_closed s = true → Forall (λ w, w = WDone) (workers s))
    as Hdone.
  { intros Hrc. destruct (Hres Hrc) as [_ Hall].
    apply Forall_forall. intros w Hw.
    apply list_elem_of_lookup in Hw as [i Hi].
    by eapply forallb_is_done_lookup. }
  split; [|split].
  - intros i r Hi. destruct (results_closed s) eqn:Hrc; [|done].
    specialize (Hdone eq_refl). rewrite Forall_forall in Hdone.
    by specialize (Hdone _ (list_elem_of_lookup_2 _ _ _ Hi)).
  - intros Hrc. destruct (Hres Hrc) as [Hfc Hall].
    split; [by apply Hclosed|]. split; [by apply Hdone|].
    intros a s' Hstep.
    destruct a as [i|i order|i| |i| |]; simpl in Hstep;
      repeat case_match; simplify_eq; simpl; try done.
  - intros a s'. apply pool_step_out.
Qed.

(** ** [dirTraversal] *)

Lemma HasSuffix_suffix_of (s suffix : list Z) :
  HasSuffix s suffix = true ↔ suffix `suffix_of` s.
Proof.
  unfold HasSuffix, len. rewrite andb_true_iff, bool_decide_eq_true. split.
  - intros [_ Hdrop]. exists (take (length s - length suffix) s).
    rewrite <- Hdrop at 2. by rewrite take_drop.
  - intros [k ->]. rewrite length_app. split; [apply Z.leb_le; lia|].
    replace (length k + length suffix - length suffix)%nat
      with (length k) by lia.
    by rewrite drop_app_length.
Qed.

Lemma HasSuffix_decide (s suffix : list Z) :
  HasSuffix s suffix = bool_decide (suffix `suffix_of` s).
Proof.
  destruct (HasSuffix s suffix) eqn:H.
  - apply HasSuffix_suffix_of in H. by rewrite bool_decide_true.
  - rewrite bool_decide_false; [done|].
    intros H'%HasSuffix_suffix_of. congruence.
Qed.

Lemma checkSize_within (minSize maxSize size : Z) :
  checkSize minSize maxSize size = bool_decide (size_within minSize maxSize size).
Proof.
  unfold checkSize.
  case_bool_decide as H; unfold size_within in H;
    destruct (Z.ltb_spec 0 minSize), (Z.ltb_spec size minSize),
             (Z.ltb_spec 0 maxSize), (Z.ltb_spec maxSize size); simpl;
    try done; lia.
Qed.

(** One call of the callback, in terms of [visit_fails] and
    [visit_listed]. *)
Lemma walk_fn_spec ext minSize maxSize files v :
  walk_fn ext minSize maxSize files v
  = (match visit_fails ext v with
     | Some _ => files
     | None =>
         if bool_decide (visit_listed ext minSize maxSize v)
         then files ++ [visit_path v] else files
     end,
     visit_fails ext v).
Proof.
  destruct v as [p err isdir name [size ierr]].
  unfold walk_fn, visit_fails, visit_listed. simpl.
  rewrite HasSuffix_decide, checkSize_within.
  destruct err as [e|], isdir, ierr as [e'|]; simpl;
    repeat case_bool_decide; simpl; try done;
    first [ by destruct_and!
          | by (exfalso; match goal with H : ¬ _ |- _ => apply H end) ].
Qed.

Lemma WalkDir_no_error ext minSize maxSize visits files :
  Forall (λ v, visit_fails ext v = None) visits →
  WalkDir (walk_fn ext minSize maxSize) visits files
  = (files ++ (visit_path <$> filter (visit_listed ext minSize maxSize) visits),
     None).
Proof.
  intros Hok. revert files.
  induction Hok as [|v visits Hv _ IH]; intros files; simpl.
  - by rewrite app_nil_r.
  - rewrite walk_fn_spec, Hv, IH.
    case_bool_decide.
    + rewrite filter_cons_True by done. by rewrite <- app_assoc.
    + by rewrite filter_cons_False by done.
Qed.

Lemma WalkDir_first_error ext minSize maxSize before v after e files :
  Forall (λ v, visit_fails ext v = None) before →
  visit_fails ext v = Some e →
  WalkDir (walk_fn ext minSize maxSize) (before ++ v :: after) files
  = (files ++ (visit_path <$> filter (visit_listed ext minSize maxSize) before),
     Some e).
Proof.
  intros Hok Hv. revert files.
  induction Hok as [|b before Hb _ IH]; intros files; simpl.
  - by rewrite walk_fn_spec, Hv, app_nil_r.
  - rewrite walk_fn_spec, Hb, IH.
    case_bool_decide.
    + rewrite filter_cons_True by done. by rewrite <- app_assoc.
    + by rewrite filter_cons_False by done.
Qed.

(** The visits up to the first one that fails. *)
Lemma visits_first_error ext (visits : list visit) :
  Forall (λ v, visit_fails ext v = None) visits
  ∨ ∃ before v after e,
      visits = before ++ v :: after
      ∧ Forall (λ v, visit_fails ext v = None) before
      ∧ visit_fails ext v = Some e.
Proof.
  induction visits as [|v visits IH]; [by left|].
  destruct (visit_fails ext v) as [e|] eqn:Hv.
  - right. by exists [], v, visits, e.
  - destruct IH as [IH|(before & v' & after & e & -> & Hok & Hv')].
    + left. by constructor.
    + right. exists (v :: before), v', after, e. by repeat constructor.
Qed.

(** [dirTraversal] on a directory.  When no visit of the walk fails, it
    returns, in the order of the walk, the paths of the files whose name
    ends in the extension and whose size is within the bounds, and no
    error; when a visit fails (the walk's own error, or [d.Info()] of a
    file with the extension), it returns that error together with the paths
    listed before it.  In both cases the paths come from the walk, in its
    order, and each is a listed file. *)
Theorem dirTraversal_on_a_directory
    (path ext : list Z) (minSize maxSize size : Z) :
  os_Stat_Size path = (size, None) → os_IsDir path = true →
  (Forall (λ v, visit_fails ext v = None) (WalkDir_visits path) →
   dirTraversal path ext minSize maxSize
   = (visit_path <$> filter (visit_listed ext minSize maxSize)
                            (WalkDir_visits path), None))
  ∧ (∀ before v after e,
       WalkDir_visits path = before ++ v :: after →
       Forall (λ v, visit_fails ext v = None) before →
       visit_fails ext v = Some e →
       dirTraversal path ext minSize maxSize
       = (visit_path <$> filter (visit_listed ext minSize maxSize) before,
          Some e))
  ∧ (dirTraversal path ext minSize maxSize).1
    `sublist_of` (visit_path <$> WalkDir_visits path)
  ∧ (∀ p, p ∈ (dirTraversal path ext minSize maxSize).1 →
          ∃ v, v ∈ WalkDir_visits path ∧ visit_path v = p
               ∧ visit_listed ext minSize maxSize v).
Proof.
  intros Hstat Hdir. unfold dirTraversal. rewrite Hstat, Hdir. simpl.
  split; [|split].
  - intros Hok. by rewrite WalkDir_no_error.
  - intros before v after e -> Hok Hv.
    by rewrite (WalkDir_first_error _ _ _ _ _ _ e).
  - assert (∃ part,
      (WalkDir (walk_fn ext minSize maxSize) (WalkDir_visits path) []).1
      = visit_path <$> filter (visit_listed ext minSize maxSize) part
      ∧ part `sublist_of` WalkDir_visits path) as (part & -> & Hpart).
    { destruct (visits_first_error ext (WalkDir_visits path))
        as [Hok|(before & v & after & e & -> & Hok & Hv)].
      - exists (WalkDir_visits path). by rewrite WalkDir_no_error.
      - exists before. rewrite (WalkDir_first_error _ _ _ _ _ _ e) by done.
        split; [done|]. by apply sublist_inserts_r. }
    split.
    + apply fmap_sublist. etrans; [apply sublist_filter|done].
    + intros p (v & -> & Hv)%list_elem_of_fmap.
      apply list_elem_of_filter in Hv as [Hlisted Hv].
      exists v. split; [|done]. by eapply elem_of_sublist.
Qed.


(** ** More on the analyzers *)

Lemma split_at_app_sep (sep : Z → bool) (a b : list Z) (r : Z) :
  sep r = true →
  split_at sep (a ++ r :: b) = split_at sep a ++ split_at sep b.
Proof.
  intros Hr. induction a as [|x a IH]; simpl.
  - by rewrite Hr.
  - rewrite IH. destruct (sep x); [done|].
    by destruct (split_at_cons_inv sep a) as (p & ps & ->).
Qed.

Lemma concat_split_at (sep : Z → bool) (s : list Z) :
  concat (split_at sep s) = filter (λ r, sep r = false) s.
Proof.
  induction s as [|x s IH]; simpl; [done|].
  destruct (split_at_cons_inv sep s) as (p & ps & Hs).
  rewrite Hs in IH |- *. destruct (sep x) eqn:Hx.
  - rewrite filter_cons_False by congruence. done.
  - rewrite filter_cons_True by done. simpl in IH |- *. by rewrite IH.
Qed.

Lemma concat_filter_nonempty (l : list (list Z)) :
  concat (filter (λ t, t ≠ []) l) = concat l.
Proof.
  induction l as [|t l IH]; [done|].
  destruct t as [|x t].
  - rewrite filter_cons_False by (intros H'; by apply H'). done.
  - rewrite filter_cons_True by done. simpl. by rewrite IH.
Qed.

(** Word counts add up.  The words of two contents joined by a whitespace
    rune are the words of the first followed by the words of the second, so
    the word count of the whole is the sum of the two word counts; the words
    hold exactly the runes of the content that are not whitespace, in
    order; and the word count is 0 exactly for a content of whitespace
    only. *)
Theorem WordCount_adds_up (a b : list Z) (r : Z) :
  IsSpace r = true →
  Fields (a ++ r :: b) = Fields a ++ Fields b
  ∧ Data (WordCount_Analyze (a ++ r :: b))
    = AnyInt (len (Fields a) + len (Fields b))
  ∧ concat (Fields a) = filter (λ r, IsSpace r = false) a
  ∧ (Data (WordCount_Analyze a) = AnyInt 0
     ↔ Forall (λ r, IsSpace r = true) a).
Proof.
  intros Hr.
  assert (Fields (a ++ r :: b) = Fields a ++ Fields b) as Happ.
  { rewrite !Fields_tokens. unfold tokens.
    by rewrite split_at_app_sep, filter_app. }
  assert (concat (Fields a) = filter (λ r, IsSpace r = false) a) as Hconcat.
  { rewrite Fields_tokens. unfold tokens.
    by rewrite concat_filter_nonempty, concat_split_at. }
  split; [done|]. split; [|split; [done|]].
  - unfold WordCount_Analyze. simpl. rewrite Happ. unfold len.
    rewrite length_app. f_equal. lia.
  - unfold WordCount_Analyze. simpl. split.
    + intros [= Hlen]. unfold len in Hlen.
      assert (Fields a = []) as Hnil
        by (destruct (Fields a); [done|simpl in Hlen; lia]).
      rewrite Hnil in Hconcat. simpl in Hconcat.
      apply Forall_forall. intros x Hx.
      destruct (IsSpace x) eqn:Hsp; [done|].
      assert (x ∈ filter (λ r, IsSpace r = false) a) as Hin
        by (by apply list_elem_of_filter).
      rewrite <- Hconcat in Hin. by apply elem_of_nil in Hin.
    + intros Hall.
      assert (filter (λ r, IsSpace r = false) a = []) as Hnone.
      { clear -Hall. induction Hall as [|x l Hx _ IH]; [done|].
        rewrite filter_cons_False by congruence. done. }
      rewrite Hnone in Hconcat.
      pose proof (tokens_wellformed a) as Hwf. rewrite <- Fields_tokens in Hwf.
      destruct (Fields a) as [|t ts]; [done|].
      inversion Hwf as [|? ? [Hne _] _]; subst.
      destruct t; [done|]. simpl in Hconcat. done.
Qed.

Lemma Count_newline_app (a b : list Z) :
  Count_newline (a ++ b) = Count_newline a + Count_newline b.
Proof. unfold Count_newline, len. rewrite filter_app, length_app. lia. Qed.

(** Line counts add up.  For contents joined by a newline (the whole being
    shorter than the largest [int]), the line count of the whole is the sum
    of the two line counts; in particular a content that ends in a newline
    has one line more than the content without it. *)
Theorem LineCount_adds_up (a b : list Z) :
  len (a ++ newline :: b) < int_max →
  ∃ la lb,
    Data (LineCount_Analyze a) = AnyInt la
    ∧ Data (LineCount_Analyze b) = AnyInt lb
    ∧ Data (LineCount_Analyze (a ++ newline :: b)) = AnyInt (la + lb)
    ∧ (b = [] → Data (LineCount_Analyze (a ++ [newline])) = AnyInt (la + 1)).
Proof.
  intros Hlen.
  pose proof (Count_newline_bounds a) as Ha.
  pose proof (Count_newline_bounds b) as Hb.
  assert (len (a ++ newline :: b) = len a + 1 + len b) as Hsum
    by (unfold len; rewrite length_app; simpl; lia).
  assert (Count_newline (a ++ newline :: b)
          = Count_newline a + 1 + Count_newline b) as Hcount.
  { rewrite Count_newline_app. unfold Count_newline at 2.
    rewrite filter_cons_True by done.
    unfold Count_newline, len. simpl. lia. }
  assert (Data (LineCount_Analyze (a ++ newline :: b))
          = AnyInt (Count_newline a + 1 + (Count_newline b + 1))) as Hwhole.
  { unfold LineCount_Analyze. simpl.
    rewrite int_add_small by (unfold int_max in Hlen |- *; lia).
    f_equal. lia. }
  exists (Count_newline a + 1), (Count_newline b + 1).
  split; [|split; [|split]].
  - unfold LineCount_Analyze. simpl.
    by rewrite int_add_small by (unfold int_max in Hlen |- *; lia).
  - unfold LineCount_Analyze. simpl.
    by rewrite int_add_small by (unfold int_max in Hlen |- *; lia).
  - exact Hwhole.
  - intros ->. by rewrite Hwhole.
Qed.

Lemma sum_counts_insert (freq : gmap (list Z) Z) (k : list Z) (v : Z) :
  sum_counts (<[k := v]> freq)
  = v + sum_counts freq - default 0 (freq !! k).
Proof.
  unfold sum_counts.
  destruct (freq !! k) as [x|] eqn:Hk; simpl.
  - rewrite <- (insert_delete_eq freq k v).
    rewrite map_fold_insert_L; [|intros; lia|apply lookup_delete_eq].
    rewrite (map_fold_delete_L _ _ k x freq); [lia|intros; lia|done].
  - rewrite map_fold_insert_L; [lia|intros; lia|done].
Qed.

Lemma foldl_incr_sum (l pre : list (list Z)) (freq : gmap (list Z) Z) :
  len pre + len l ≤ int_max →
  (∀ w, freq !! w = occurrence_entry w pre) →
  sum_counts freq = len pre →
  sum_counts (foldl (λ freq word, incr freq (ToLower word)) freq l)
  = len pre + len l.
Proof.
  revert pre freq. induction l as [|x l IH]; intros pre freq Hlen Hpre Hsum.
  - simpl. unfold len at 2. simpl. lia.
  - simpl.
    assert (len (pre ++ [ToLower x]) = len pre + 1) as Hsnoc
      by (unfold len; rewrite length_app; simpl; lia).
    assert (len (x :: l) = 1 + len l) as Hcons
      by (unfold len; simpl; lia).
    rewrite Hcons in Hlen |- *.
    rewrite (IH (pre ++ [ToLower x])); [lia|lia| |].
    + intros w.
      pose proof (foldl_incr_lookup [x] pre freq) as H.
      simpl in H. apply H; [|done]. unfold len in *. simpl. lia.
    + unfold incr. rewrite sum_counts_insert, Hpre, Hsnoc.
      pose proof (occurrences_bounds (ToLower x) pre) as Hb.
      assert (default 0 (occurrence_entry (ToLower x) pre)
              = occurrences (ToLower x) pre) as ->.
      { unfold occurrence_entry.
        destruct (Z.eqb_spec (occurrences (ToLower x) pre) 0) as [->|];
          done. }
      unfold len in Hlen, Hb, Hsum |- *.
      rewrite int_add_small by (unfold int_max in Hlen |- *; lia). lia.
Qed.

(** The counts of the frequency map add up to the word count: for every
    content (no longer than the largest [int]) the sum of the counts in
    the map of the word-frequency analyzer is the result of the word-count
    analyzer, and every count in the map is at least 1. *)
Theorem MostFrequentWords_sums_to_WordCount (content : list Z) :
  len content ≤ int_max →
  ∃ freq n,
    Data (MostFrequentWords_Analyze content) = AnyFreq freq
    ∧ Data (WordCount_Analyze content) = AnyInt n
    ∧ sum_counts freq = n
    ∧ ∀ w count, freq !! w = Some count → 1 ≤ count.
Proof.
  intros Hlen. eexists _, _. split; [reflexivity|]. split; [reflexivity|].
  pose proof (tokens_length content) as Htok.
  rewrite <- Fields_tokens in Htok.
  split.
  - rewrite (foldl_incr_sum (Fields content) [] ∅); try done.
    unfold len in Hlen |- *. simpl. lia.
  - intros w count.
    rewrite (foldl_incr_lookup (Fields content) [] ∅);
      [| unfold len in Hlen |- *; simpl; lia | done].
    rewrite app_nil_l. unfold occurrence_entry.
    pose proof (occurrences_bounds w (ToLower <$> Fields content)).
    destruct (Z.eqb_spec (occurrences w (ToLower <$> Fields content)) 0);
      intros [=]; lia.
Qed.

Lemma IsSpace_letter (r : Z) : 33 ≤ r ≤ 127 → IsSpace r = false.
Proof.
  intros Hr. unfold IsSpace.
  rewrite (proj2 (Z.leb_le 0 r)), (proj2 (Z.leb_le r 255)) by lia. simpl.
  rewrite !(proj2 (Z.eqb_neq _ _)) by lia. done.
Qed.

Lemma ToLower_rune_ASCII_eq (r : Z) :
  is_ASCII r →
  ToLower_rune r = if (65 <=? r) && (r <=? 90) then r + 32 else r.
Proof.
  unfold is_ASCII, ToLower_rune. intros Hr.
  by rewrite (proj2 (Z.leb_le 0 r)), (proj2 (Z.leb_le r 127)) by lia.
Qed.

Lemma ToLower_rune_ASCII (r : Z) :
  is_ASCII r →
  is_ASCII (ToLower_rune r)
  ∧ IsSpace (ToLower_rune r) = IsSpace r
  ∧ ToLower_rune (ToLower_rune r) = ToLower_rune r.
Proof.
  intros Hr. rewrite (ToLower_rune_ASCII_eq r Hr). unfold is_ASCII in Hr |- *.
  destruct (Z.leb_spec 65 r), (Z.leb_spec r 90); simpl.
  - split; [lia|]. split.
    + by rewrite !IsSpace_letter by lia.
    + rewrite ToLower_rune_ASCII_eq by (unfold is_ASCII; lia).
      by rewrite (proj2 (Z.leb_gt (r + 32) 90)), andb_false_r by lia.
  - split; [lia|]. split; [done|].
    rewrite ToLower_rune_ASCII_eq by (unfold is_ASCII; lia).
    by rewrite (proj2 (Z.leb_gt r 90)), andb_false_r by lia.
  - split; [lia|]. split; [done|].
    rewrite ToLower_rune_ASCII_eq by (unfold is_ASCII; lia).
    by rewrite (proj2 (Z.leb_gt 65 r)) by lia.
  - split; [lia|]. split; [done|].
    rewrite ToLower_rune_ASCII_eq by (unfold is_ASCII; lia).
    by rewrite (proj2 (Z.leb_gt 65 r)) by lia.
Qed.

Lemma split_at_fmap (sep : Z → bool) (f : Z → Z) (s : list Z) :
  Forall (λ r, sep (f r) = sep r) s →
  split_at sep (f <$> s) = (λ t : list Z, f <$> t) <$> split_at sep s.
Proof.
  induction 1 as [|x s Hx _ IH]; [done|].
  rewrite fmap_cons. simpl. rewrite Hx, IH.
  destruct (sep x); [done|].
  by destruct (split_at_cons_inv sep s) as (p & ps & ->).
Qed.

Lemma elem_of_concat_piece {A} (x : A) (t : list A) (l : list (list A)) :
  x ∈ t → t ∈ l → x ∈ concat l.
Proof.
  intros Hx Ht. induction Ht as [t l|t t' l _ IH]; simpl;
    apply elem_of_app; auto.
Qed.

Lemma Fields_ToLower (content : list Z) :
  Forall is_ASCII content →
  Fields (ToLower content) = ToLower <$> Fields content.
Proof.
  intros Hascii. rewrite !Fields_tokens. unfold tokens, ToLower.
  rewrite split_at_fmap.
  - generalize (split_at IsSpace content). intros l.
    induction l as [|t l IH]; [done|].
    rewrite fmap_cons. destruct t as [|x t].
    + rewrite !filter_cons_False by (intros H'; by apply H'). exact IH.
    + rewrite !filter_cons_True by done. by rewrite IH.
  - eapply Forall_impl; [exact Hascii|].
    intros r Hr. by destruct (ToLower_rune_ASCII r Hr) as (_ & ? & _).
Qed.

(** Letter case does not matter in ASCII contents: lower-casing an ASCII
    content changes neither its word count, nor its line count, nor its
    frequency map, so two ASCII contents that differ in the case of letters
    only have the same frequency map. *)
Theorem analyzers_ignore_ASCII_case (content content' : list Z) :
  Forall is_ASCII content → Forall is_ASCII content' →
  MostFrequentWords_Analyze (ToLower content)
  = MostFrequentWords_Analyze content
  ∧ WordCount_Analyze (ToLower content) = WordCount_Analyze content
  ∧ LineCount_Analyze (ToLower content) = LineCount_Analyze content
  ∧ (ToLower content = ToLower content' →
     MostFrequentWords_Analyze content = MostFrequentWords_Analyze content').
Proof.
  intros Hascii Hascii'.
  assert (∀ c, Forall is_ASCII c →
               MostFrequentWords_Analyze (ToLower c)
               = MostFrequentWords_Analyze c) as Hfreq.
  { intros c Hc. unfold MostFrequentWords_Analyze. f_equal. f_equal.
    rewrite (Fields_ToLower c Hc).
    assert (Forall (Forall is_ASCII) (Fields c)) as Hwords.
    { rewrite Fields_tokens. unfold tokens.
      apply Forall_forall. intros t [_ Ht]%list_elem_of_filter.
      apply Forall_forall. intros r Hr.
      assert (r ∈ concat (split_at IsSpace c)) as Hin
        by (by eapply elem_of_concat_piece).
      rewrite concat_split_at in Hin.
      apply list_elem_of_filter in Hin as [_ Hin].
      rewrite Forall_forall in Hc. by apply Hc. }
    generalize (∅ : gmap (list Z) Z).
    induction Hwords as [|w ws Hw _ IH]; intros freq; [done|].
    rewrite fmap_cons. simpl. rewrite IH. f_equal. f_equal.
    unfold ToLower. rewrite <- list_fmap_compose.
    apply Forall_fmap_ext_1. eapply Forall_impl; [exact Hw|].
    intros r Hr. simpl. by destruct (ToLower_rune_ASCII r Hr) as (_ & _ & ?). }
  split; [by apply Hfreq|]. split; [|split].
  - unfold WordCount_Analyze. f_equal. f_equal.
    rewrite (Fields_ToLower content Hascii). unfold len.
    by rewrite length_fmap.
  - unfold LineCount_Analyze. f_equal. f_equal. f_equal.
    unfold Count_newline, ToLower. f_equal.
    clear -Hascii. induction Hascii as [|r l Hr _ IH]; [done|].
    rewrite fmap_cons.
    assert (ToLower_rune r = newline ↔ r = newline) as Hnl.
    { unfold ToLower_rune, is_ASCII, newline in *.
      destruct (Z.leb_spec 0 r), (Z.leb_spec r 127); try lia. simpl.
      destruct (Z.leb_spec 65 r), (Z.leb_spec r 90); simpl; lia. }
    destruct (decide (r = newline)) as [Heq|Hne].
    + rewrite (filter_cons_True _ (ToLower_rune r)) by (by apply Hnl).
      rewrite (filter_cons_True _ r) by done.
      rewrite IH. f_equal. by rewrite (proj2 Hnl Heq).
    + rewrite (filter_cons_False _ (ToLower_rune r)) by (by rewrite Hnl).
      rewrite (filter_cons_False _ r) by done. exact IH.
  - intros Heq. by rewrite <- (Hfreq content), <- (Hfreq content'), Heq.
Qed.

End Pipeline.

(** * The properties in the concrete environment *)

Lemma demo_sort_contract : sort_Slice_contract demo_sort.
Proof.
  assert (Total (no_inversion count_greater)) as Htotal.
  { intros a b. unfold no_inversion, count_greater.
    destruct (Z.ltb_spec (Count a) (Count b)),
             (Z.ltb_spec (Count b) (Count a)); auto; lia. }
  assert (Transitive (no_inversion count_greater)) as Htrans.
  { intros a b c. unfold no_inversion, count_greater.
    rewrite !Z.ltb_ge. lia. }
  intros l. unfold demo_sort. split.
  - apply merge_sort_Permutation.
  - apply StronglySorted_merge_sort; done.
Qed.

(** C7 at "a\nb": two lines. *)
Lemma LineCount_newlines_plus_one_witness :
  len (runes "a" ++ [newline] ++ runes "b") < int_max
  ∧ LineCount_Analyze (runes "a" ++ [newline] ++ runes "b")
    = {| NameAnalyzer := runes "line_count"; Data := AnyInt 2 |}.
Proof.
  assert (len (runes "a" ++ [newline] ++ runes "b") < int_max) as Hlen
    by reflexivity.
  split; [exact Hlen|].
  exact (proj1 (LineCount_newlines_plus_one _ Hlen)).
Defined.

(** C8 at "Go go GO gopher": three occurrences of "go", one of "gopher". *)
Lemma MostFrequentWords_counts_lowercased_witness :
  len (runes "Go go GO gopher") ≤ int_max
  ∧ ∃ freq,
      Data (MostFrequentWords_Analyze demo_lower (runes "Go go GO gopher"))
      = AnyFreq freq
      ∧ freq !! runes "go" = Some 3
      ∧ freq !! runes "gopher" = Some 1
      ∧ freq !! runes "Go" = None.
Proof.
  assert (len (runes "Go go GO gopher") ≤ int_max) as Hlen
    by (by vm_compute).
  split; [exact Hlen|].
  destruct (MostFrequentWords_counts_lowercased demo_lower _ Hlen)
    as [(freq & Hfreq & Hlookup) _].
  exists freq. split; [by rewrite Hfreq|].
  rewrite !Hlookup. by vm_compute.
Defined.

(** C9 on [demo_files]: the missing file is left out, the file after it is
    still analysed, and the result is in the order of the input. *)
Lemma AnalyzeSequential_in_order_skipping_unreadable_witness :
  (readFileContent demo_ReadFile demo_Stat_Size (runes "docs/missing.txt")).2
  ≠ None
  ∧ (AnalyzeSequential demo_ReadFile demo_Stat_Size demo_Base demo_files
                       (main_analyzers demo_lower)).1
    = (AnalyzeSequential demo_ReadFile demo_Stat_Size demo_Base
                         [runes "docs/a.txt"] (main_analyzers demo_lower)).1
      ++ (AnalyzeSequential demo_ReadFile demo_Stat_Size demo_Base
                            [runes "docs/b.txt"] (main_analyzers demo_lower)).1
  ∧ FileName <$> (AnalyzeSequential demo_ReadFile demo_Stat_Size demo_Base
                                    demo_files (main_analyzers demo_lower)).1
    = [runes "a.txt"; runes "b.txt"].
Proof.
  assert ((readFileContent demo_ReadFile demo_Stat_Size
                           (runes "docs/missing.txt")).2 ≠ None) as Hbad
    by (by vm_compute).
  split; [exact Hbad|]. split.
  - exact (proj1 (proj2
      (AnalyzeSequential_in_order_skipping_unreadable
         demo_ReadFile demo_Stat_Size demo_Base (main_analyzers demo_lower)
         [runes "docs/a.txt"] [runes "docs/b.txt"] (runes "docs/missing.txt")
         Hbad))).
  - by vm_compute.
Defined.

(** C1 on [demo_files] with two workers: under [demo_schedule] the second
    file's bundle is returned before the first file's, and the bundles are
    those of the sequential run. *)
Lemma AnalyzeParallel_same_bundles_as_sequential_witness :
  1 ≤ 2
  ∧ ∃ ret,
      AnalyzeParallel demo_ReadFile demo_Stat_Size demo_Base demo_files
                      (main_analyzers demo_lower) 2 ret
      ∧ FileName <$> ret.1 = [runes "b.txt"; runes "a.txt"]
      ∧ FileName <$> (AnalyzeSequential demo_ReadFile demo_Stat_Size demo_Base
                        demo_files (main_analyzers demo_lower)).1
        = [runes "a.txt"; runes "b.txt"]
      ∧ ret.1 ≡ₚ (AnalyzeSequential demo_ReadFile demo_Stat_Size demo_Base
                    demo_files (main_analyzers demo_lower)).1.
Proof.
  assert (1 ≤ 2) as Hw by done.
  split; [exact Hw|].
  destruct (pool_run demo_ReadFile demo_Stat_Size demo_Base
              (main_analyzers demo_lower) demo_schedule
              (AnalyzeParallel_start demo_files 2)) as [s|] eqn:Hrun;
    [|by vm_compute in Hrun].
  destruct (returned s) as [ret|] eqn:Hret;
    [|by (vm_compute in Hrun; injection Hrun as <-)].
  assert (AnalyzeParallel demo_ReadFile demo_Stat_Size demo_Base demo_files
            (main_analyzers demo_lower) 2 ret) as Hpar
    by (by exists demo_schedule, s).
  exists ret. split; [exact Hpar|]. split; [|split].
  - vm_compute in Hrun. injection Hrun as <-. injection Hret as <-.
    by vm_compute.
  - by vm_compute.
  - exact (proj1 (proj1 (proj2
      (AnalyzeParallel_same_bundles_as_sequential
         demo_ReadFile demo_Stat_Size demo_Base demo_files
         (main_analyzers demo_lower) 2 Hw)) ret Hpar)).
Defined.

(** C10 on two files that cannot be read, with one worker: both calls
    return no bundle and a nil error. *)
Lemma Analyze_error_is_always_nil_witness :
  1 ≤ 1
  ∧ AnalyzeSequential demo_ReadFile demo_Stat_Size demo_Base
      [runes "x.txt"; runes "y.txt"] (main_analyzers demo_lower)
    = ([], None)
  ∧ AnalyzeParallel demo_ReadFile demo_Stat_Size demo_Base
      [runes "x.txt"; runes "y.txt"] (main_analyzers demo_lower) 1 ([], None).
Proof.
  assert (1 ≤ 1) as Hw by done.
  split; [exact Hw|].
  pose proof (Analyze_error_is_always_nil
                demo_ReadFile demo_Stat_Size demo_Base
                [runes "x.txt"; runes "y.txt"] (main_analyzers demo_lower)
                1 Hw) as (_ & [results Hpar] & _ & _ & Hfail).
  assert (Forall
            (λ path, (readFileContent demo_ReadFile demo_Stat_Size path).2
                     ≠ None)
            [runes "x.txt"; runes "y.txt"]) as Hbad
    by (repeat constructor; by vm_compute).
  destruct (Hfail Hbad) as [Hseq Hall]. split; [exact Hseq|].
  by rewrite <- (Hall _ Hpar).
Defined.

(** C2 with the three analyzers of [main] completing in the order
    frequency, words, lines: the slots are in the order words, lines,
    frequency. *)
Lemma results_one_per_analyzer_in_order_witness :
  completion_order (main_analyzers demo_lower) [2; 0; 1]%nat
  ∧ NameAnalyzer <$> analyze_slots (main_analyzers demo_lower)
                       (runes "hello world" ++ [newline] ++ runes "hello go")
                       [2; 0; 1]%nat
    = [runes "word_count"; runes "line_count"; runes "most_frequent_words"]
  ∧ analyze_slots (main_analyzers demo_lower)
      (runes "hello world" ++ [newline] ++ runes "hello go") [2; 0; 1]%nat
    = analyze_all (main_analyzers demo_lower)
        (runes "hello world" ++ [newline] ++ runes "hello go").
Proof.
  assert (completion_order (main_analyzers demo_lower) [2; 0; 1]%nat)
    as Horder
    by (refine (proj1 (bool_decide_eq_true (completion_order _ _)) _);
        by vm_compute).
  split; [exact Horder|]. split; [by vm_compute|].
  exact (proj1 (results_one_per_analyzer_in_order
                  demo_lower demo_ReadFile demo_Stat_Size demo_Base
                  (main_analyzers demo_lower) _ _ Horder)).
Defined.

(** C3, the claim as the specification states it, fails: after
    [demo_interrupted] the signal has fired and worker 0 is pushing, yet it
    cannot leave without delivering; its push goes through and the filter
    stage receives the bundle. *)
Lemma push_is_completed_after_cancel :
  ∃ s r s',
    main_run demo_lower demo_ReadFile demo_Stat_Size demo_Base
             demo_interrupted (main_start [runes "docs/b.txt"] 1) = Some s
    ∧ ctx_done s = true
    ∧ mworkers s !! 0%nat = Some (MPush r)
    ∧ ¬ push_abandoned_on_cancel demo_lower demo_ReadFile demo_Stat_Size
          demo_Base s 0
    ∧ main_step demo_lower demo_ReadFile demo_Stat_Size demo_Base
                (Deliver 0) s = Some s'
    ∧ received s' = [r]
    ∧ mworkers s' !! 0%nat = Some MSelect.
Proof.
  destruct (main_run demo_lower demo_ReadFile demo_Stat_Size demo_Base
              demo_interrupted (main_start [runes "docs/b.txt"] 1))
    as [s|] eqn:Hrun; [|by vm_compute in Hrun].
  assert (ctx_done s = true ∧ received s = []
          ∧ ∃ r, mworkers s !! 0%nat = Some (MPush r))
    as (Hdone & Hrecv & r & Hw).
  { vm_compute in Hrun. injection Hrun as <-.
    split; [done|]. split; [done|]. by eexists. }
  assert (∃ s', main_step demo_lower demo_ReadFile demo_Stat_Size demo_Base
                          (Deliver 0) s = Some s') as [s' Hstep]
    by (simpl; rewrite Hw; eauto).
  destruct (main_step_pushing demo_lower demo_ReadFile demo_Stat_Size
              demo_Base s 0%nat r (Deliver 0) s' Hw eq_refl Hstep)
    as (_ & Hr' & Hselect & _).
  exists s, r, s'. split; [done|]. split; [done|]. split; [done|].
  split; [|split; [done|split; [by rewrite Hr', Hrecv|done]]].
  intros Habandon.
  destruct (Habandon r Hdone Hw) as (a & s'' & Ha & Hst & Hexit & _).
  destruct (main_step_pushing _ _ _ _ _ _ _ _ _ Hw Ha Hst)
    as (_ & _ & Hselect' & _).
  congruence.
Qed.

(** The amended C3 in the same state. *)
Lemma push_completes_whether_cancelled_or_not_witness :
  ∃ s r,
    main_run demo_lower demo_ReadFile demo_Stat_Size demo_Base
             demo_interrupted (main_start [runes "docs/b.txt"] 1) = Some s
    ∧ ctx_done s = true
    ∧ mworkers s !! 0%nat = Some (MPush r)
    ∧ ∃ s', main_step demo_lower demo_ReadFile demo_Stat_Size demo_Base
                      (Deliver 0) s = Some s'
            ∧ main_step demo_lower demo_ReadFile demo_Stat_Size demo_Base
                        (QuitCancelled 0) s'
              = Some (set_mworker s' 0 MExit).
Proof.
  destruct (main_run demo_lower demo_ReadFile demo_Stat_Size demo_Base
              demo_interrupted (main_start [runes "docs/b.txt"] 1))
    as [s|] eqn:Hrun; [|by vm_compute in Hrun].
  assert (ctx_done s = true ∧ ∃ r, mworkers s !! 0%nat = Some (MPush r))
    as (Hdone & r & Hw).
  { vm_compute in Hrun. injection Hrun as <-. split; [done|]. by eexists. }
  exists s, r. split; [done|]. split; [done|]. split; [done|].
  destruct (push_completes_whether_cancelled_or_not
              demo_lower demo_ReadFile demo_Stat_Size demo_Base
              s 0%nat r Hw) as ([s' Hs'] & _ & Hquit & _).
  exists s'. split; [exact Hs'|]. exact (Hquit s' Hs' Hdone).
Defined.

(** C4 on the bundles of the three readable files, whose contents have 1,
    2 and 5 words: the first is dropped, the other two are forwarded in
    order. *)
Lemma filter_stage_forwards_word_count_ge_2_witness :
  ∃ r1 r2 r3,
    omap (file_bundle demo_ReadFile demo_Stat_Size demo_Base
                      (main_analyzers demo_lower))
         [runes "docs/a.txt"; runes "docs/b.txt"; runes "docs/c.txt"]
    = [r1; r2; r3]
    ∧ Forall2 has_word_count [r1; r2; r3] [1; 2; 5]
    ∧ filter_stage [r1; r2; r3] = Some [r2; r3].
Proof.
  destruct (file_bundle demo_ReadFile demo_Stat_Size demo_Base
              (main_analyzers demo_lower) (runes "docs/a.txt"))
    as [r1|] eqn:H1; [|by vm_compute in H1].
  destruct (file_bundle demo_ReadFile demo_Stat_Size demo_Base
              (main_analyzers demo_lower) (runes "docs/b.txt"))
    as [r2|] eqn:H2; [|by vm_compute in H2].
  destruct (file_bundle demo_ReadFile demo_Stat_Size demo_Base
              (main_analyzers demo_lower) (runes "docs/c.txt"))
    as [r3|] eqn:H3; [|by vm_compute in H3].
  assert (Forall2 has_word_count [r1; r2; r3] [1; 2; 5]) as Hcounts.
  { repeat constructor.
    - exact (file_bundle_word_count _ _ _ _ _ _ H1).
    - exact (file_bundle_word_count _ _ _ _ _ _ H2).
    - exact (file_bundle_word_count _ _ _ _ _ _ H3). }
  exists r1, r2, r3. split; [|split; [exact Hcounts|]].
  - assert (∀ (f : list Z → option FileAnalysisResult) x y l,
              f x = Some y → omap f (x :: l) = y :: omap f l) as Hcons
      by (intros f x y l E; simpl; by rewrite E).
    by rewrite (Hcons _ _ _ _ H1), (Hcons _ _ _ _ H2), (Hcons _ _ _ _ H3).
  - exact (proj1 (filter_stage_forwards_word_count_ge_2
                    demo_lower demo_ReadFile demo_Stat_Size demo_Base
                    _ _ Hcounts)).
Defined.

(** C5 with a merge sort for [sort.Slice]: two bundles with the maps
    {"a":1,"b":2} and {"a":3} are collected into {"a":4,"b":2}, and the
    top-1 report is [("a",4)]. *)
Lemma collect_merges_and_reports_top_words_witness :
  sort_Slice_contract demo_sort
  ∧ collect [freq_bundle (runes "x.txt") 7 {[ runes "a" := 1; runes "b" := 2 ]};
             freq_bundle (runes "y.txt") 5 {[ runes "a" := 3 ]}]
    = Some (mkTotals 0 0 {[ runes "a" := 4; runes "b" := 2 ]})
  ∧ top_words demo_sort
              (map_to_list ({[ runes "a" := 4; runes "b" := 2 ]}
                            : gmap (list Z) Z)) 1
    = [mkWordCount (runes "a") 4].
Proof.
  split; [exact demo_sort_contract|].
  destruct (collect_merges_and_reports_top_words demo_sort demo_sort_contract)
    as (_ & _ & _ & _ & Hexample).
  destruct (Hexample (runes "x.txt") 7 (runes "y.txt") 5
              (map_to_list ({[ runes "a" := 4; runes "b" := 2 ]}
                            : gmap (list Z) Z))) as [Hcollect Htop].
  split; [exact Hcollect|]. by apply Htop.
Defined.

(** ** Further examples *)

(** Two bundles with the maps {"a":1,"b":2} and {"a":3}, collected in
    either order, give the same totals. *)
Lemma collect_any_arrival_order_witness :
  [freq_bundle (runes "x.txt") 7 {[ runes "a" := 1; runes "b" := 2 ]};
   freq_bundle (runes "y.txt") 5 {[ runes "a" := 3 ]}]
  ≡ₚ [freq_bundle (runes "y.txt") 5 {[ runes "a" := 3 ]};
      freq_bundle (runes "x.txt") 7 {[ runes "a" := 1; runes "b" := 2 ]}]
  ∧ collect
      [freq_bundle (runes "x.txt") 7 {[ runes "a" := 1; runes "b" := 2 ]};
       freq_bundle (runes "y.txt") 5 {[ runes "a" := 3 ]}]
    = collect
        [freq_bundle (runes "y.txt") 5 {[ runes "a" := 3 ]};
         freq_bundle (runes "x.txt") 7 {[ runes "a" := 1; runes "b" := 2 ]}].
Proof.
  assert ([freq_bundle (runes "x.txt") 7 {[ runes "a" := 1; runes "b" := 2 ]};
           freq_bundle (runes "y.txt") 5 {[ runes "a" := 3 ]}]
          ≡ₚ [freq_bundle (runes "y.txt") 5 {[ runes "a" := 3 ]};
              freq_bundle (runes "x.txt") 7
                          {[ runes "a" := 1; runes "b" := 2 ]}]) as Hperm
    by apply Permutation_swap.
  split; [exact Hperm|].
  exact (collect_any_arrival_order _ _ Hperm).
Defined.

(** The corpus of the contents "one two" and "a b c d\nE": 7 words, 3
    lines, and "e" once in the global map. *)
Lemma collect_totals_of_corpus_witness :
  sum_Z ((λ c, len c + 1)
           <$> [runes "one two"; runes "a b c d" ++ [newline] ++ runes "E"])
  ≤ int_max
  ∧ ∃ t,
      collect
        [ {| FileName := runes "b.txt"; Size := 7;
             Results := analyze_all (main_analyzers demo_lower)
                                    (runes "one two") |};
          {| FileName := runes "c.txt"; Size := 9;
             Results := analyze_all (main_analyzers demo_lower)
                          (runes "a b c d" ++ [newline] ++ runes "E") |} ]
      = Some t
      ∧ totalWords t = 7
      ∧ totalLines t = 3
      ∧ globalMap t !! runes "e" = Some 1
      ∧ globalMap t !! runes "E" = None.
Proof.
  assert (sum_Z ((λ c, len c + 1)
                   <$> [runes "one two";
                        runes "a b c d" ++ [newline] ++ runes "E"])
          ≤ int_max) as Hsum by (by vm_compute).
  split; [exact Hsum|].
  destruct (collect_totals_of_corpus demo_lower
              [ {| FileName := runes "b.txt"; Size := 7;
                   Results := analyze_all (main_analyzers demo_lower)
                                          (runes "one two") |};
                {| FileName := runes "c.txt"; Size := 9;
                   Results := analyze_all (main_analyzers demo_lower)
                                (runes "a b c d" ++ [newline] ++ runes "E") |} ]
              [runes "one two"; runes "a b c d" ++ [newline] ++ runes "E"])
    as (t & Hcollect & Hwords & Hlines & Hmap);
    [by repeat constructor|exact Hsum|].
  exists t. split; [exact Hcollect|].
  rewrite Hwords, Hlines, !Hmap. by vm_compute.
Defined.

(** The top-2 report of the map {"a":4,"b":2,"c":7} with a merge sort for
    [sort.Slice]. *)
Lemma top_words_are_the_most_frequent_witness :
  sort_Slice_contract demo_sort
  ∧ 0 < 2
  ∧ len (top_words demo_sort
           (map_to_list ({[ runes "a" := 4; runes "b" := 2; runes "c" := 7 ]}
                         : gmap (list Z) Z)) 2) ≤ 2
  ∧ StronglySorted by_descending_count
      (top_words demo_sort
         (map_to_list ({[ runes "a" := 4; runes "b" := 2; runes "c" := 7 ]}
                       : gmap (list Z) Z)) 2)
  ∧ NoDup (Word <$> top_words demo_sort
             (map_to_list ({[ runes "a" := 4; runes "b" := 2; runes "c" := 7 ]}
                           : gmap (list Z) Z)) 2).
Proof.
  assert (0 < 2) as Hpos by done.
  split; [exact demo_sort_contract|]. split; [exact Hpos|].
  destruct (top_words_are_the_most_frequent demo_sort
              {[ runes "a" := 4; runes "b" := 2; runes "c" := 7 ]}
              (map_to_list ({[ runes "a" := 4; runes "b" := 2;
                               runes "c" := 7 ]} : gmap (list Z) Z)) 2
              demo_sort_contract (reflexivity _) Hpos)
    as (Hlen & Hsorted & _ & Hnodup & _).
  split; [exact Hlen|]. split; [exact Hsorted|exact Hnodup].
Defined.

(** After [demo_interrupted] the pool of [main] can still take a step
    other than the interrupt. *)
Lemma main_pool_terminates_without_deadlock_witness :
  ∃ s,
    main_run demo_lower demo_ReadFile demo_Stat_Size demo_Base
             demo_interrupted (main_start [runes "docs/b.txt"] 1) = Some s
    ∧ (length demo_interrupted ≤ 4 * 1 + 1 + 3)%nat
    ∧ mresults_closed s = false
    ∧ ∃ a s', a ≠ Cancel
              ∧ main_step demo_lower demo_ReadFile demo_Stat_Size demo_Base
                          a s = Some s'.
Proof.
  destruct (main_run demo_lower demo_ReadFile demo_Stat_Size demo_Base
              demo_interrupted (main_start [runes "docs/b.txt"] 1))
    as [s|] eqn:Hrun; [|by vm_compute in Hrun].
  assert (mresults_closed s = false) as Hopen
    by (vm_compute in Hrun; by injection Hrun as <-).
  destruct (main_pool_terminates_without_deadlock
              demo_lower demo_ReadFile demo_Stat_Size demo_Base
              [runes "docs/b.txt"] 1 demo_interrupted s Hrun)
    as (Hlen & Hstep & _).
  exists s. split; [done|]. split; [exact Hlen|]. split; [exact Hopen|].
  exact (Hstep Hopen).
Defined.

(** After [demo_full_run] the two bundles delivered are among those of the
    three files. *)
Lemma main_pool_delivers_each_file_at_most_once_witness :
  ∃ s,
    main_run demo_lower demo_ReadFile demo_Stat_Size demo_Base
             demo_full_run (main_start demo_files 2) = Some s
    ∧ length (received s) = 2%nat
    ∧ received s ⊆+ omap (file_bundle demo_ReadFile demo_Stat_Size demo_Base
                                      (main_analyzers demo_lower)) demo_files
    ∧ (length (received s) ≤ length demo_files)%nat.
Proof.
  destruct (main_run demo_lower demo_ReadFile demo_Stat_Size demo_Base
              demo_full_run (main_start demo_files 2))
    as [s|] eqn:Hrun; [|by vm_compute in Hrun].
  assert (length (received s) = 2%nat) as Hlen
    by (vm_compute in Hrun; by injection Hrun as <-).
  destruct (main_pool_delivers_each_file_at_most_once
              demo_lower demo_ReadFile demo_Stat_Size demo_Base
              demo_files 2 demo_full_run s Hrun) as (Hsub & Hle & _).
  exists s. split; [done|]. split; [exact Hlen|]. split; [exact Hsub|exact Hle].
Defined.

(** [demo_full_run] runs to the close of [results] without an interrupt:
    the bundles of "b.txt" and "a.txt" are delivered in that order, and they
    are those of the sequential engine. *)
Lemma main_pool_delivers_every_file_when_not_interrupted_witness :
  1 ≤ 2
  ∧ ∃ s,
      main_run demo_lower demo_ReadFile demo_Stat_Size demo_Base
               demo_full_run (main_start demo_files 2) = Some s
      ∧ ctx_done s = false
      ∧ mresults_closed s = true
      ∧ FileName <$> received s = [runes "b.txt"; runes "a.txt"]
      ∧ received s
        ≡ₚ (AnalyzeSequential demo_ReadFile demo_Stat_Size demo_Base
              demo_files (main_analyzers demo_lower)).1.
Proof.
  assert (1 ≤ 2) as Hw by done.
  split; [exact Hw|].
  destruct (main_run demo_lower demo_ReadFile demo_Stat_Size demo_Base
              demo_full_run (main_start demo_files 2))
    as [s|] eqn:Hrun; [|by vm_compute in Hrun].
  assert (ctx_done s = false ∧ mresults_closed s = true
          ∧ FileName <$> received s = [runes "b.txt"; runes "a.txt"])
    as (Hctx & Hclosed & Hnames)
    by (vm_compute in Hrun; by injection Hrun as <-).
  exists s. split; [done|]. split; [exact Hctx|]. split; [exact Hclosed|].
  split; [exact Hnames|].
  exact (main_pool_delivers_every_file_when_not_interrupted
           demo_lower demo_ReadFile demo_Stat_Size demo_Base
           demo_files 2 demo_full_run s Hw Hrun Hctx Hclosed).
Defined.

(** What [demo_full_run] delivers passes the filter stage and the
    collecting loop without a panic; the bundle of "a.txt", with one word,
    is dropped. *)
Lemma main_pipeline_never_panics_witness :
  ∃ s filteredResults t,
    main_run demo_lower demo_ReadFile demo_Stat_Size demo_Base
             demo_full_run (main_start demo_files 2) = Some s
    ∧ filter_stage (received s) = Some filteredResults
    ∧ filteredResults `sublist_of` received s
    ∧ FileName <$> filteredResults = [runes "b.txt"]
    ∧ collect filteredResults = Some t.
Proof.
  destruct (main_run demo_lower demo_ReadFile demo_Stat_Size demo_Base
              demo_full_run (main_start demo_files 2))
    as [s|] eqn:Hrun; [|by vm_compute in Hrun].
  destruct (main_pipeline_never_panics
              demo_lower demo_ReadFile demo_Stat_Size demo_Base
              demo_files 2 demo_full_run s Hrun)
    as (filteredResults & t & Hfilter & Hsub & _ & Hcollect).
  assert (FileName <$> filteredResults = [runes "b.txt"]) as Hnames
    by (vm_compute in Hrun; injection Hrun as <-;
        vm_compute in Hfilter; by injection Hfilter as <-).
  exists s, filteredResults, t.
  split; [reflexivity|]. split; [exact Hfilter|]. split; [exact Hsub|].
  split; [exact Hnames|exact Hcollect].
Defined.

(** [AnalyzeParallel] on [demo_files] with no worker: nothing can happen
    and the call does not return. *)
Lemma AnalyzeParallel_without_workers_witness :
  0 ≤ 0
  ∧ demo_files ≠ []
  ∧ (∀ a, pool_step demo_ReadFile demo_Stat_Size demo_Base
                    (main_analyzers demo_lower) a
                    (AnalyzeParallel_start demo_files 0) = None)
  ∧ (∀ ret, ¬ AnalyzeParallel demo_ReadFile demo_Stat_Size demo_Base
                demo_files (main_analyzers demo_lower) 0 ret).
Proof.
  assert (0 ≤ 0) as Hw by done.
  assert (demo_files ≠ []) as Hfiles by done.
  split; [exact Hw|]. split; [exact Hfiles|].
  exact (proj1 (AnalyzeParallel_without_workers
                  demo_ReadFile demo_Stat_Size demo_Base demo_files
                  (main_analyzers demo_lower) 0 Hw) Hfiles).
Defined.

(** After [demo_schedule], [results] is closed, the feed is empty and both
    workers have left their loop. *)
Lemma AnalyzeParallel_never_sends_after_close_witness :
  ∃ s,
    pool_run demo_ReadFile demo_Stat_Size demo_Base
             (main_analyzers demo_lower) demo_schedule
             (AnalyzeParallel_start demo_files 2) = Some s
    ∧ results_closed s = true
    ∧ feed s = []
    ∧ Forall (λ w, w = WDone) (workers s).
Proof.
  destruct (pool_run demo_ReadFile demo_Stat_Size demo_Base
              (main_analyzers demo_lower) demo_schedule
              (AnalyzeParallel_start demo_files 2)) as [s|] eqn:Hrun;
    [|by vm_compute in Hrun].
  assert (results_closed s = true) as Hclosed
    by (vm_compute in Hrun; by injection Hrun as <-).
  destruct (AnalyzeParallel_never_sends_after_close
              demo_ReadFile demo_Stat_Size demo_Base demo_files
              (main_analyzers demo_lower) 2 demo_schedule s Hrun)
    as (_ & Hafter & _).
  destruct (Hafter Hclosed) as (Hfeed & Hdone & _).
  exists s. split; [reflexivity|]. split; [exact Hclosed|].
  split; [exact Hfeed|exact Hdone].
Defined.

(** [dirTraversal] on the directory [docs] for ".txt" files of 5 to 50
    bytes: "docs/b.txt" and "docs/c.txt", in the order of the walk; and on
    [locked], where the walk stops at the failure of [d.Info()]. *)
Lemma dirTraversal_on_a_directory_witness :
  demo_dir_Stat_Size (runes "docs") = (4096, None)
  ∧ demo_IsDir (runes "docs") = true
  ∧ dirTraversal demo_dir_Stat_Size demo_IsDir demo_visits
                 (runes "docs") (runes ".txt") 5 50
    = ([runes "docs/b.txt"; runes "docs/c.txt"], None)
  ∧ dirTraversal demo_dir_Stat_Size demo_IsDir demo_visits
                 (runes "locked") (runes ".txt") 0 0
    = ([runes "locked/x.txt"], Some (runes "permission denied")).
Proof.
  assert (demo_dir_Stat_Size (runes "docs") = (4096, None)) as Hstat
    by reflexivity.
  assert (demo_IsDir (runes "docs") = true) as Hdir by reflexivity.
  split; [exact Hstat|]. split; [exact Hdir|]. split.
  - rewrite (proj1 (dirTraversal_on_a_directory
                      demo_dir_Stat_Size demo_IsDir demo_visits
                      (runes "docs") (runes ".txt") 5 50 4096 Hstat Hdir)).
    + by vm_compute.
    + repeat constructor.
  - assert (demo_dir_Stat_Size (runes "locked") = (4096, None)) as Hstat'
      by reflexivity.
    assert (demo_IsDir (runes "locked") = true) as Hdir' by reflexivity.
    rewrite (proj1 (proj2 (dirTraversal_on_a_directory
                             demo_dir_Stat_Size demo_IsDir demo_visits
                             (runes "locked") (runes ".txt") 0 0 4096
                             Hstat' Hdir'))
               [demo_dir_visit "locked" "locked";
                demo_file_visit "locked/x.txt" "x.txt" 5]
               (mkVisit (runes "locked/y.txt") None false (runes "y.txt")
                        (0, Some (runes "permission denied")))
               [demo_file_visit "locked/z.txt" "z.txt" 5]
               (runes "permission denied")).
    + by vm_compute.
    + reflexivity.
    + repeat constructor.
    + reflexivity.
Defined.


(** "hello" and "big world" joined by a space: 1 + 2 words. *)
Lemma WordCount_adds_up_witness :
  IsSpace 32 = true
  ∧ Fields (runes "hello" ++ 32 :: runes "big world")
    = [runes "hello"; runes "big"; runes "world"]
  ∧ Data (WordCount_Analyze (runes "hello" ++ 32 :: runes "big world"))
    = AnyInt (len (Fields (runes "hello")) + len (Fields (runes "big world"))).
Proof.
  assert (IsSpace 32 = true) as Hr by reflexivity.
  destruct (WordCount_adds_up (runes "hello") (runes "big world") 32 Hr)
    as (Hfields & Hcount & _).
  split; [exact Hr|]. split; [|exact Hcount].
  rewrite Hfields. by vm_compute.
Defined.

(** "a" and "b\nc" joined by a newline: 1 + 2 lines. *)
Lemma LineCount_adds_up_witness :
  len (runes "a" ++ newline :: runes "b" ++ [newline] ++ runes "c") < int_max
  ∧ Data (LineCount_Analyze (runes "a")) = AnyInt 1
  ∧ Data (LineCount_Analyze (runes "b" ++ [newline] ++ runes "c")) = AnyInt 2
  ∧ Data (LineCount_Analyze
            (runes "a" ++ newline :: runes "b" ++ [newline] ++ runes "c"))
    = AnyInt (1 + 2).
Proof.
  assert (len (runes "a" ++ newline :: runes "b" ++ [newline] ++ runes "c")
          < int_max) as Hlen by reflexivity.
  destruct (LineCount_adds_up (runes "a")
              (runes "b" ++ [newline] ++ runes "c") Hlen)
    as (la & lb & Ha & Hb & Hab & _).
  split; [exact Hlen|]. split; [by vm_compute|]. split; [by vm_compute|].
  rewrite Hab. f_equal.
  assert (AnyInt la = AnyInt 1) as Hla by (rewrite <- Ha; by vm_compute).
  assert (AnyInt lb = AnyInt 2) as Hlb by (rewrite <- Hb; by vm_compute).
  injection Hla as ->. by injection Hlb as ->.
Defined.

(** "Go go GO gopher": the counts 3 and 1 of the map add up to the word
    count 4. *)
Lemma MostFrequentWords_sums_to_WordCount_witness :
  len (runes "Go go GO gopher") ≤ int_max
  ∧ ∃ freq,
      Data (MostFrequentWords_Analyze demo_lower (runes "Go go GO gopher"))
      = AnyFreq freq
      ∧ Data (WordCount_Analyze (runes "Go go GO gopher")) = AnyInt 4
      ∧ sum_counts freq = 4.
Proof.
  assert (len (runes "Go go GO gopher") ≤ int_max) as Hlen
    by (by vm_compute).
  split; [exact Hlen|].
  destruct (MostFrequentWords_sums_to_WordCount demo_lower _ Hlen)
    as (freq & n & Hfreq & Hn & Hsum & _).
  exists freq. split; [exact Hfreq|].
  assert (n = 4) as -> by (vm_compute in Hn; by injection Hn as <-).
  by split; [vm_compute|].
Defined.

(** "Go Gopher" and "gO gopHER" have the same frequency map. *)
Lemma analyzers_ignore_ASCII_case_witness :
  Forall is_ASCII (runes "Go Gopher")
  ∧ Forall is_ASCII (runes "gO gopHER")
  ∧ ToLower demo_lower (runes "Go Gopher")
    = ToLower demo_lower (runes "gO gopHER")
  ∧ MostFrequentWords_Analyze demo_lower (runes "Go Gopher")
    = MostFrequentWords_Analyze demo_lower (runes "gO gopHER").
Proof.
  assert (Forall is_ASCII (runes "Go Gopher")) as H1
    by (refine (proj1 (bool_decide_eq_true _) _); by vm_compute).
  assert (Forall is_ASCII (runes "gO gopHER")) as H2
    by (refine (proj1 (bool_decide_eq_true _) _); by vm_compute).
  assert (ToLower demo_lower (runes "Go Gopher")
          = ToLower demo_lower (runes "gO gopHER")) as Hlower
    by reflexivity.
  split; [exact H1|]. split; [exact H2|]. split; [exact Hlower|].
  destruct (analyzers_ignore_ASCII_case demo_lower _ _ H1 H2)
    as (_ & _ & _ & Hsame).
  exact (Hsame Hlower).
Defined.

(** A bundle whose word count is 1 is dropped although its "line_count"
    result holds no [int]; a bundle whose "word_count" result holds no
    [int] makes the filter stage panic. *)
Lemma filter_stage_on_any_bundles_witness :
  1 < 2
  ∧ filter_stage
      [ {| FileName := runes "a.txt"; Size := 3;
           Results := [ {| NameAnalyzer := runes "word_count";
                           Data := AnyInt 1 |};
                        {| NameAnalyzer := runes "line_count";
                           Data := AnyNil |} ] |} ] = Some []
  ∧ assert_int AnyNil = None
  ∧ filter_stage
      ([] ++ {| FileName := runes "a.txt"; Size := 3;
                Results := [] ++ {| NameAnalyzer := runes "word_count";
                                    Data := AnyNil |} :: [] |} :: [])
    = None.
Proof.
  assert (1 < 2) as Hlt by done.
  assert (assert_int AnyNil = None) as Hnil by reflexivity.
  destruct filter_stage_on_any_bundles as (_ & _ & Hdrop & Hpanic).
  split; [exact Hlt|]. split; [exact (Hdrop _ _ _ _ Hlt)|].
  split; [exact Hnil|].
  exact (Hpanic [] [] _ _ [] _ [] (Forall_nil_2 _) Hnil).
Defined.
